(** * Metadata-dictionary generation pipeline (create_metadata_dictionary.ipynb)

    A shallow embedding of the notebook's functions: schema introspection
    ([get_indices], [get_fields]), the field sampler ([get_diverse_terms]),
    prompt construction ([generate_prompt]), JSON extraction ([extract_json]),
    the per-field unit of work ([process_field]) and the thread-pool fan-out
    ([process_index], [generate_metadata_dictionary]).

    Python strings are modelled as [string], one character per code point
    (the code points below 256, which the 8-bit characters can hold), Python
    exceptions as an error type threaded through a small result monad, the
    Elasticsearch and watsonx clients as records of response functions, and
    the thread pool as a transition system driven by an explicit schedule. *)

From Stdlib Require Import ZArith Ascii String DecimalString.
From stdpp Require Import gmap strings list.

Set Warnings "-register-all".

Local Open Scope string_scope.
Local Open Scope list_scope.

(** ** Exceptions and the result monad *)

Module Py.

(** The exception classes the pipeline can meet.  [TransportError] and
    [NotFoundError] come from the two service clients; [JSONDecodeError] is
    never seen outside [extract_json], which re-raises it as [ValueError]. *)
Inductive exn :=
| TransportError (msg : string)
| NotFoundError (msg : string)
| KeyError (key : string)
| TypeError (msg : string)
| ValueError (msg : string).

Inductive result (A : Type) :=
| Ok (a : A)
| Raise (e : exn).
Arguments Ok {A} a.
Arguments Raise {A} e.

(** Sequencing: an exception in [m] skips the rest ([x ← m; k]). *)
#[export] Instance result_ret : MRet result := fun A a => Ok a.
#[export] Instance result_bind : MBind result := fun A B f m =>
  match m with
  | Ok a => f a
  | Raise e => Raise e
  end.

(** [isinstance(e, ValueError)] *)
Definition is_ValueError (e : exn) : bool :=
  match e with
  | ValueError _ => true
  | _ => false
  end.

(** [try: body except ValueError: handler] *)
Definition try_except_ValueError {A} (body : result A) (handler : result A) : result A :=
  match body with
  | Ok a => Ok a
  | Raise e => if is_ValueError e then handler else Raise e
  end.

(** [for x in xs: acc.append(f(x))], stopping at the first exception. *)
Fixpoint for_each {A B} (f : A -> result B) (xs : list A) : result (list B) :=
  match xs with
  | [] => Ok []
  | x :: xs' =>
      y ← f x; ys ← for_each f xs'; Ok (y :: ys)
  end.

End Py.
Import Py.

(** ** Strings *)

Definition newline : ascii := "010"%char.

(** The code points below 256 for which [str.isspace] holds, which are
    the ones [str.strip] removes: tab to carriage return, the four
    separators before the space, the space, next line (U+0085) and the
    no-break space (U+00A0). *)
Definition is_space (c : ascii) : bool :=
  let n := nat_of_ascii c in
  ((9 <=? n)%nat && (n <=? 13)%nat) || ((28 <=? n)%nat && (n <=? 32)%nat)
  || (n =? 133)%nat || (n =? 160)%nat.

Fixpoint lstrip (s : list ascii) : list ascii :=
  match s with
  | c :: s' => if is_space c then lstrip s' else s
  | [] => []
  end.

(** [str.strip()] *)
Definition strip (s : string) : string :=
  string_of_list_ascii
    (rev (lstrip (rev (lstrip (list_ascii_of_string s))))).

(** [sep.join(parts)] *)
Fixpoint join (sep : string) (parts : list string) : string :=
  match parts with
  | [] => ""
  | [p] => p
  | p :: ps => p +:+ sep +:+ join sep ps
  end.

(** [str(n)] for an integer. *)
Definition str_of_Z (z : Z) : string :=
  NilZero.string_of_int (Z.to_int z).

(** ** JSON values

    What [json.loads] produces and [json.dumps] consumes.  Objects keep
    their members in insertion order, as Python dictionaries do.  Numbers
    are the integers; floating point is outside the model. *)
Inductive json :=
| JNull
| JBool (b : bool)
| JNum (z : Z)
| JStr (s : string)
| JArr (items : list json)
| JObj (members : list (string * json)).

(** [d.get(key)] on the members of an object. *)
Fixpoint member (key : string) (members : list (string * json)) : option json :=
  match members with
  | [] => None
  | (k, v) :: rest => if decide (k = key) then Some v else member key rest
  end.

(** ** Regular expressions

    The fragment of Python's [re] syntax that the notebook's pattern uses,
    with the backtracking semantics of [re]: alternatives are tried left
    to right, [*] is greedy, and a failure of what follows makes the
    matcher retry the most recent choice. *)
Inductive regex :=
| Lit (c : ascii)            (* a literal (possibly escaped) character *)
| Dot                        (* [.] without DOTALL: anything but a newline *)
| Alt (r1 r2 : regex)        (* [r1|r2] *)
| Seq (r1 r2 : regex)        (* [r1r2] *)
| Star (r : regex)           (* [r*], greedy *)
| Group (n : nat) (r : regex). (* the n-th capturing group *)

Module Re.

(** What remains to be matched, with the groups captured so far. *)
Definition cont (R : Type) := list ascii -> gmap nat (list ascii) -> option R.

Section Backtrack.
Context {R : Type}.

(** Greedy iteration: one more round of [body] first, the continuation
    otherwise.  A round that consumes nothing ends the iteration, so
    [fuel] rounds suffice when [fuel] bounds the length of the input. *)
Fixpoint star_loop (body : list ascii -> gmap nat (list ascii) -> cont R -> option R)
    (fuel : nat) (s : list ascii) (caps : gmap nat (list ascii)) (k : cont R)
    : option R :=
  match fuel with
  | 0 => k s caps
  | S fuel' =>
      match body s caps (fun s' caps' =>
              if decide (length s' < length s)
              then star_loop body fuel' s' caps' k
              else None) with
      | Some m => Some m
      | None => k s caps
      end
  end.

Fixpoint backtrack (r : regex) (s : list ascii) (caps : gmap nat (list ascii))
    (k : cont R) : option R :=
  match r with
  | Lit c =>
      match s with
      | c' :: s' => if decide (c' = c) then k s' caps else None
      | [] => None
      end
  | Dot =>
      match s with
      | c' :: s' => if decide (c' = newline) then None else k s' caps
      | [] => None
      end
  | Alt r1 r2 =>
      match backtrack r1 s caps k with
      | Some m => Some m
      | None => backtrack r2 s caps k
      end
  | Seq r1 r2 =>
      backtrack r1 s caps (fun s' caps' => backtrack r2 s' caps' k)
  | Star r1 =>
      star_loop (backtrack r1) (length s) s caps k
  | Group n r1 =>
      backtrack r1 s caps (fun s' caps' =>
        k s' (<[n := take (length s - length s') s]> caps'))
  end.
End Backtrack.

(** A match object: the whole match ([group(0)]) and the numbered groups. *)
Record match_object := {
  whole : list ascii;
  groups : gmap nat (list ascii);
}.

(** [re.match]: the pattern anchored at the start of [s]. *)
Definition match_at (r : regex) (s : list ascii) : option match_object :=
  backtrack r s ∅ (fun s' caps =>
    Some {| whole := take (length s - length s') s; groups := caps |}).

(** [re.search]: the leftmost position at which the pattern matches. *)
Fixpoint search_from (r : regex) (s : list ascii) : option match_object :=
  match match_at r s with
  | Some m => Some m
  | None =>
      match s with
      | [] => None
      | _ :: s' => search_from r s'
      end
  end.

Definition search (r : regex) (text : string) : option match_object :=
  search_from r (list_ascii_of_string text).

(** [m.group(n)] for [n >= 1]; [None] when the group took no part. *)
Definition group (m : match_object) (n : nat) : option string :=
  string_of_list_ascii <$> groups m !! n.

End Re.

(** ** A reference [json] codec

    [json.dumps] and [json.loads] belong to Python's library, so the
    pipeline below takes the parser as a parameter.  This module is an
    executable codec for the value type above (compact output with the
    default [", "] and [": "] separators; objects, arrays, strings with
    the standard escapes, integers, [true], [false], [null]); it is what
    the worked examples run.  Numbers with a fraction or an exponent have
    no value in that type and are refused, and an error names the kind of
    failure without its position. *)
Module JsonRef.

Definition quote : ascii := "034"%char.
Definition backslash : ascii := "092"%char.

Definition hex_digit (n : nat) : ascii :=
  ascii_of_nat (if (n <? 10)%nat then 48 + n else 87 + n).

Definition escape (c : ascii) : list ascii :=
  let n := nat_of_ascii c in
  if decide (c = quote) then [backslash; quote]
  else if decide (c = backslash) then [backslash; backslash]
  else if decide (n = 8) then [backslash; "b"%char]
  else if decide (n = 9) then [backslash; "t"%char]
  else if decide (n = 10) then [backslash; "n"%char]
  else if decide (n = 12) then [backslash; "f"%char]
  else if decide (n = 13) then [backslash; "r"%char]
  else if ((n <? 32) || (126 <? n))%nat
       then [backslash; "u"%char; "0"%char; "0"%char;
             hex_digit (n / 16); hex_digit (n mod 16)]
  else [c].

Definition dump_string (s : string) : list ascii :=
  quote :: concat (map escape (list_ascii_of_string s)) ++ [quote].

Fixpoint dump (v : json) : list ascii :=
  match v with
  | JNull => list_ascii_of_string "null"
  | JBool true => list_ascii_of_string "true"
  | JBool false => list_ascii_of_string "false"
  | JNum z => list_ascii_of_string (str_of_Z z)
  | JStr s => dump_string s
  | JArr items =>
      let fix dump_items (l : list json) : list ascii :=
        match l with
        | [] => []
        | [x] => dump x
        | x :: l' => dump x ++ list_ascii_of_string ", " ++ dump_items l'
        end in
      "["%char :: dump_items items ++ ["]"%char]
  | JObj members =>
      let fix dump_members (l : list (string * json)) : list ascii :=
        match l with
        | [] => []
        | [(k, x)] => dump_string k ++ list_ascii_of_string ": " ++ dump x
        | (k, x) :: l' =>
            dump_string k ++ list_ascii_of_string ": " ++ dump x
              ++ list_ascii_of_string ", " ++ dump_members l'
        end in
      "{"%char :: dump_members members ++ ["}"%char]
  end.

(** [json.dumps(v)] *)
Definition dumps (v : json) : string := string_of_list_ascii (dump v).

(** JSON whitespace: space, tab, line feed, carriage return. *)
Definition is_ws (c : ascii) : bool :=
  let n := nat_of_ascii c in
  (n =? 32)%nat || (n =? 9)%nat || (n =? 10)%nat || (n =? 13)%nat.

Fixpoint skip_ws (s : list ascii) : list ascii :=
  match s with
  | c :: s' => if is_ws c then skip_ws s' else s
  | [] => []
  end.

Definition digit_of (c : ascii) : option Z :=
  let n := nat_of_ascii c in
  if ((48 <=? n) && (n <=? 57))%nat then Some (Z.of_nat (n - 48)) else None.

Definition hex_of (c : ascii) : option nat :=
  let n := nat_of_ascii c in
  if ((48 <=? n) && (n <=? 57))%nat then Some (n - 48)
  else if ((97 <=? n) && (n <=? 102))%nat then Some (n - 87)
  else if ((65 <=? n) && (n <=? 70))%nat then Some (n - 55)
  else None.

Fixpoint parse_digits (acc : Z) (s : list ascii) : Z * list ascii :=
  match s with
  | c :: s' =>
      match digit_of c with
      | Some d => parse_digits (10 * acc + d) s'
      | None => (acc, s)
      end
  | [] => (acc, [])
  end.

(** An integer literal: an optional sign, then [0] or a digit string
    without a leading zero. *)
Definition parse_number (s : list ascii) : option (Z * list ascii) :=
  let unsigned (s : list ascii) :=
    match s with
    | c :: s' =>
        match digit_of c with
        | Some 0%Z => Some (0%Z, s')
        | Some d => Some (parse_digits d s')
        | None => None
        end
    | [] => None
    end in
  match s with
  | "-"%char :: s' => '(z, rest) ← unsigned s'; Some (- z, rest)%Z
  | _ => unsigned s
  end.

(** The characters of a string literal after its opening quote. *)
Fixpoint parse_chars (s : list ascii) (acc : list ascii)
    : option (string * list ascii) :=
  match s with
  | [] => None
  | c :: s' =>
      if decide (c = quote) then Some (string_of_list_ascii (rev acc), s')
      else if decide (c = backslash) then
        match s' with
        | "u"%char :: "0"%char :: "0"%char :: h :: l :: s'' =>
            match hex_of h, hex_of l with
            | Some a, Some b => parse_chars s'' (ascii_of_nat (16 * a + b) :: acc)
            | _, _ => None
            end
        | e :: s'' =>
            let plain (c' : ascii) := parse_chars s'' (c' :: acc) in
            if decide (e = quote) then plain quote
            else if decide (e = backslash) then plain backslash
            else if decide (e = "/"%char) then plain "/"%char
            else if decide (e = "b"%char) then plain (ascii_of_nat 8)
            else if decide (e = "t"%char) then plain (ascii_of_nat 9)
            else if decide (e = "n"%char) then plain (ascii_of_nat 10)
            else if decide (e = "f"%char) then plain (ascii_of_nat 12)
            else if decide (e = "r"%char) then plain (ascii_of_nat 13)
            else None
        | [] => None
        end
      else if (nat_of_ascii c <? 32)%nat then None
      else parse_chars s' (c :: acc)
  end.

Definition expect (word : string) (v : json) (s : list ascii)
    : option (json * list ascii) :=
  let w := list_ascii_of_string word in
  if decide (take (length w) s = w) then Some (v, drop (length w) s) else None.

(** [d[k] = v]: a key that is present keeps its place and takes the new
    value. *)
Fixpoint dict_set (k : string) (v : json) (d : list (string * json))
    : list (string * json) :=
  match d with
  | [] => [(k, v)]
  | (k', v') :: d' =>
      if decide (k' = k) then (k, v) :: d' else (k', v') :: dict_set k v d'
  end.

(** The dictionary of the members as read: of a repeated key the last
    value stays. *)
Definition dict_of (members : list (string * json)) : list (string * json) :=
  foldl (fun d '(k, v) => dict_set k v d) [] members.

(** Recursive descent; [fuel] bounds the number of values still to read. *)
Fixpoint parse_value (fuel : nat) (s : list ascii) : option (json * list ascii) :=
  match fuel with
  | 0 => None
  | S fuel' =>
      match skip_ws s with
      | [] => None
      | c :: s' =>
          if decide (c = "{"%char) then
            match skip_ws s' with
            | "}"%char :: rest => Some (JObj [], rest)
            | _ => '(ms, rest) ← parse_members fuel' s'; Some (JObj (dict_of ms), rest)
            end
          else if decide (c = "["%char) then
            match skip_ws s' with
            | "]"%char :: rest => Some (JArr [], rest)
            | _ => '(xs, rest) ← parse_items fuel' s'; Some (JArr xs, rest)
            end
          else if decide (c = quote) then
            '(str, rest) ← parse_chars s' []; Some (JStr str, rest)
          else if decide (c = "t"%char) then expect "true" (JBool true) (c :: s')
          else if decide (c = "f"%char) then expect "false" (JBool false) (c :: s')
          else if decide (c = "n"%char) then expect "null" JNull (c :: s')
          else '(z, rest) ← parse_number (c :: s'); Some (JNum z, rest)
      end
  end
with parse_items (fuel : nat) (s : list ascii) : option (list json * list ascii) :=
  match fuel with
  | 0 => None
  | S fuel' =>
      '(x, rest) ← parse_value fuel' s;
      match skip_ws rest with
      | ","%char :: rest' => '(xs, rest'') ← parse_items fuel' rest'; Some (x :: xs, rest'')
      | "]"%char :: rest' => Some ([x], rest')
      | _ => None
      end
  end
with parse_members (fuel : nat) (s : list ascii)
    : option (list (string * json) * list ascii) :=
  match fuel with
  | 0 => None
  | S fuel' =>
      match skip_ws s with
      | c :: s' =>
          if decide (c = quote) then
            '(k, rest) ← parse_chars s' [];
            match skip_ws rest with
            | ":"%char :: rest' =>
                '(x, rest'') ← parse_value fuel' rest';
                match skip_ws rest'' with
                | ","%char :: rest3 =>
                    '(ms, rest4) ← parse_members fuel' rest3; Some ((k, x) :: ms, rest4)
                | "}"%char :: rest3 => Some ([(k, x)], rest3)
                | _ => None
                end
            | _ => None
            end
          else None
      | [] => None
      end
  end.

(** [json.loads(text)]: the whole text must be one value.  The left
    summand carries the message of the [JSONDecodeError]. *)
Definition loads (text : string) : string + json :=
  let s := list_ascii_of_string text in
  match parse_value (S (length s)) s with
  | Some (v, rest) =>
      match skip_ws rest with
      | [] => inr v
      | _ => inl "Extra data"
      end
  | None => inl "Expecting value"
  end.

End JsonRef.

(** ** The two service clients *)

(** A bucket key of a terms aggregation: a string for keyword fields, an
    integer for numeric ones. *)
Inductive term :=
| TStr (s : string)
| TInt (z : Z).

#[export] Instance term_eq_dec : EqDecision term.
Proof. solve_decision. Defined.

#[export] Instance term_countable : Countable term.
Proof.
  refine (inj_countable'
    (fun t => match t with TStr s => inl s | TInt z => inr z end)
    (fun x => match x with inl s => TStr s | inr z => TInt z end) _).
  by intros [].
Defined.

Record bucket := {
  key : term;
  doc_count : Z;
}.

(** The [aggregations] part of a search response, as [get_diverse_terms]
    reads it: the buckets of the three terms aggregations, the value of
    the cardinality aggregation and the hits of the top-hits one. *)
Record aggregations := {
  agg_frequent_terms : list bucket;
  agg_rare_terms : list bucket;
  agg_significant_terms : list bucket;
  agg_unique_count : Z;
  agg_sample_docs : list json;
}.

(** One index of a get-mapping response.  [properties], when the index
    has any, lists the fields in response order, each with the
    string-valued parameters of its mapping entry; an entry of an object
    field carries no [type]. *)
Record mappings_body := {
  properties : option (list (string * gmap string string));
}.

Record index_mapping := {
  mappings : mappings_body;
}.

(** The Elasticsearch client: what each call answers, or the exception it
    raises.  The handle is shared by all workers and keeps no state of its
    own, so an answer depends on the request only. *)
Record Elasticsearch := {
  indices_get_alias : result (list (string * json));
  indices_get_mapping : string -> result (gmap string index_mapping);
  search : string -> json -> result aggregations;
}.

(** The text-generation client. *)
Record WatsonxWrapper := {
  generate_text : string -> result string;
}.

(** ** Schema introspection *)

Record field_detail := {
  field_name : string;
  data_type : string;
}.

Definition get_indices (es : Elasticsearch) : result (list string) :=
  aliases ← indices_get_alias es;
  Ok (aliases.*1).

Definition get_fields (es : Elasticsearch) (index : string)
    : result (list field_detail) :=
  mapping ← indices_get_mapping es index;
  match mapping !! index with
  | None => Raise (KeyError index)
  | Some entry =>
      let properties := default [] (properties (mappings entry)) in
      Ok ((fun '(field, details) =>
             let dtype := default "unknown" (details !! "type") in
             {| field_name := field; data_type := dtype |}) <$> properties)
  end.

(** ** The field sampler *)

Record diverse_terms := {
  frequent_terms : list term;
  rare_terms : list term;
  significant_terms : list term;
  unique_count : Z;
  sample_docs : list json;
}.

(** The aggregation target: the keyword sub-field of a text field. *)
Definition agg_field (field data_type : string) : string :=
  if decide (data_type = "text") then field +:+ ".keyword" else field.

(** The body of the one search request. *)
Definition query (field data_type : string) (size : Z) : json :=
  let agg_field := agg_field field data_type in
  JObj [
    ("aggs", JObj [
      ("frequent_terms", JObj [
        ("terms", JObj [("field", JStr agg_field); ("size", JNum size)])]);
      ("rare_terms", JObj [
        ("rare_terms", JObj [("field", JStr agg_field); ("max_doc_count", JNum 5)])]);
      ("significant_terms", JObj [
        ("significant_terms", JObj [("field", JStr agg_field); ("size", JNum size)])]);
      ("unique_count", JObj [
        ("cardinality", JObj [("field", JStr agg_field)])]);
      ("sample_docs", JObj [
        ("top_hits", JObj [("size", JNum 3)])])])].

Definition get_diverse_terms (es : Elasticsearch) (index field data_type : string)
    (size : Z) : result diverse_terms :=
  response ← search es index (query field data_type size);
  Ok {| frequent_terms := key <$> agg_frequent_terms response;
        rare_terms := key <$> agg_rare_terms response;
        significant_terms := key <$> agg_significant_terms response;
        unique_count := agg_unique_count response;
        sample_docs := agg_sample_docs response |}.

(** ** Prompt construction *)

Definition nl : string := String newline "".
Definition dq : string := String JsonRef.quote "".

Definition SYSTEM_PROMPT : string :=
  "You are a highly knowledgeable metadata dictionary agent. " +:+
  "Your mission is to help Elasticsearch admins understand their data by providing clear, concise natural language descriptions for each field.".

Definition LLM_PREFIX : string :=
  "**Generating Metadata Dictionary in desired format:**".

(** [USER_PROMPT_TEMPLATE.format(index=.., field=.., data_type=.., samples=..)] *)
Definition USER_PROMPT_TEMPLATE (index field data_type samples : string) : string :=
  "Analyze the field based on the input below:" +:+ nl +:+
  "- Index Name: " +:+ index +:+ nl +:+
  "- Field Name: " +:+ field +:+ nl +:+
  "- Data Type: " +:+ data_type +:+ nl +:+
  "- Sample Values: " +:+ samples +:+ nl +:+ nl +:+
  "Generate a description that explains the field's purpose. " +:+
  "Return the output strictly in the following JSON format (no additional text):" +:+ nl +:+ nl +:+
  "json" +:+ nl +:+
  "{" +:+ nl +:+
  "  " +:+ dq +:+ "field_name" +:+ dq +:+ ": " +:+ dq +:+ field +:+ dq +:+ "," +:+ nl +:+
  "  " +:+ dq +:+ "index_name" +:+ dq +:+ ": " +:+ dq +:+ index +:+ dq +:+ "," +:+ nl +:+
  "  " +:+ dq +:+ "data_type" +:+ dq +:+ ": " +:+ dq +:+ data_type +:+ dq +:+ "," +:+ nl +:+
  "  " +:+ dq +:+ "natural_language_description" +:+ dq +:+ ": " +:+ dq +:+ "<your description>" +:+ dq +:+ "," +:+ nl +:+
  "  " +:+ dq +:+ "sample_value" +:+ dq +:+ ": " +:+ dq +:+ samples +:+ dq +:+ nl +:+
  "}" +:+ nl.

(** [LLAMA3_BASE_PROMPT.format(system_prompt=.., user_prompt=.., llm_prefix=..)] *)
Definition LLAMA3_BASE_PROMPT (system_prompt user_prompt llm_prefix : string) : string :=
  "<|begin_of_text|><|start_header_id|>system<|end_header_id|>" +:+ nl +:+
  system_prompt +:+ "<|eot_id|><|start_header_id|>user<|end_header_id|>" +:+ nl +:+
  user_prompt +:+ "<|eot_id|><|start_header_id|>assistant<|end_header_id|>" +:+ nl +:+
  llm_prefix.

(** [str(t)] for a bucket key. *)
Definition str_of_term (t : term) : string :=
  match t with
  | TStr s => s
  | TInt z => str_of_Z z
  end.

Definition generate_prompt (index field data_type : string) (samples : list term)
    : string :=
  let user_prompt :=
    USER_PROMPT_TEMPLATE index field data_type (join ", " (str_of_term <$> samples)) in
  LLAMA3_BASE_PROMPT SYSTEM_PROMPT user_prompt LLM_PREFIX.

(** ** JSON extraction *)

(** Any character: [(?:.|\n)]. *)
Definition any_char : regex := Alt Dot (Lit newline).

(** The pattern [(\{(?:.|\n)*\})]. *)
Definition pattern : regex :=
  Group 1 (Seq (Lit "{") (Seq (Star any_char) (Lit "}"))).

(** [xs[:stop]] *)
Definition slice_to {A} (xs : list A) (stop : Z) : list A :=
  if decide (0 <= stop)%Z then take (Z.to_nat stop) xs
  else take (length xs - Z.to_nat (- stop)) xs.

(** The order in which the interpreter enumerates a set built from a
    list.  Python leaves it open (it follows the hashes of the members,
    which for strings change from one process to the next), so it is a
    parameter of the pipeline: any function that lists the members of
    its argument, each once. *)
Record set_enumeration := {
  enumerate : list term -> list term;
  enumerate_NoDup : forall xs, NoDup (enumerate xs);
  enumerate_elem : forall xs x, x ∈ enumerate xs <-> x ∈ xs;
}.

(** [list(set(xs))] *)
Definition list_of_set (order : set_enumeration) (xs : list term) : list term :=
  enumerate order xs.

(** One enumeration, for the worked examples. *)
Definition hash_order : set_enumeration :=
  {| enumerate := fun xs => elements (list_to_set xs : gset term);
     enumerate_NoDup := fun xs => NoDup_elements (list_to_set xs : gset term);
     enumerate_elem := fun xs x =>
       iff_trans (elem_of_elements (list_to_set xs : gset term) x)
                 (elem_of_list_to_set x xs) |}.

(** The bucket key as it appears in a record. *)
Definition json_of_term (t : term) : json :=
  match t with
  | TStr s => JStr s
  | TInt z => JNum z
  end.

Section Pipeline.
(** [json.loads]: the parsed value, or the message of the [JSONDecodeError]
    it raises. *)
Variable json_loads : string -> string + json.
(** The interpreter's enumeration of sets. *)
Variable order : set_enumeration.

Definition extract_json (text : string) : result json :=
  match Re.search pattern text with
  | Some m =>
      match Re.group m 1 with
      | Some span =>
          match json_loads span with
          | inr value => Ok value
          | inl e => Raise (ValueError ("Error parsing JSON: " +:+ e))
          end
      | None => Raise (TypeError "the JSON object must be str, bytes or bytearray, not NoneType")
      end
  | None => Raise (ValueError "No JSON object found in the text.")
  end.

(** ** The unit of work *)

(** The sample list handed to [generate_prompt]. *)
Definition combined_samples (terms : diverse_terms) (threshold : Z) : list term :=
  slice_to
    (list_of_set order
       (frequent_terms terms ++ rare_terms terms ++ significant_terms terms))
    threshold.

(** The record built in the [except ValueError] branch. *)
Definition fallback (index field data_type llm_text : string)
    (combined_samples : list term) : json :=
  JObj [
    ("field_name", JStr field);
    ("index_name", JStr index);
    ("data_type", JStr data_type);
    ("natural_language_description", JStr llm_text);
    ("sample_value",
      match combined_samples with
      | first :: _ => json_of_term first
      | [] => JStr ""
      end)].

Definition process_field (es : Elasticsearch) (index : string)
    (field_detail : field_detail) (llm_client : WatsonxWrapper) (threshold : Z)
    : result json :=
  let field := field_name field_detail in
  let data_type := data_type field_detail in
  diverse_terms ← get_diverse_terms es index field data_type threshold;
  let combined_samples := combined_samples diverse_terms threshold in
  let prompt := generate_prompt index field data_type combined_samples in
  raw ← generate_text llm_client prompt;
  let llm_text := strip raw in
  try_except_ValueError
    (extract_json llm_text)
    (Ok (fallback index field data_type llm_text combined_samples)).

End Pipeline.

(** ** The worker pool

    [ThreadPoolExecutor] with [as_completed], as a transition system.  The
    main thread submits the work items one by one, then takes finished
    futures from [as_completed] and reads their results until all are taken
    or one raises, then waits for the pool to shut down (queued items still
    run); the workers take the queued items oldest first, and at most
    [max_workers] units are in the hands of workers at a time.  A worker
    that has taken an item may be delayed before the unit begins, so the
    unit that begins next is any of the oldest queued items that the
    workers not running a unit can hold.  [as_completed] promises no
    order among the futures that have finished, so any of them may be
    handed over next.  Which enabled action happens next is the
    schedule's choice. *)
Module Pool.

Inductive action :=
| Submit            (* the next [executor.submit] call *)
| Start (k : nat)   (* the k-th queued unit begins in a free worker *)
| Finish (k : nat)  (* the k-th running unit returns or raises *)
| Yield (k : nat).  (* [as_completed] hands over the k-th finished future *)

Inductive event (T : Type) :=
| Submitted (t : T)
| Started (t : T)
| Finished (t : T)
| Yielded (t : T).
Arguments Submitted {T} t.
Arguments Started {T} t.
Arguments Finished {T} t.
Arguments Yielded {T} t.

(** Where every work item stands, and the exception that ended the loop
    over [as_completed], if one did. *)
Record state (T : Type) := {
  unsubmitted : list T;
  queued : list T;
  running : list T;
  finished : list T;
  yielded : list T;
  raised : option exn;
}.
Arguments unsubmitted {T} s.
Arguments queued {T} s.
Arguments running {T} s.
Arguments finished {T} s.
Arguments yielded {T} s.
Arguments raised {T} s.

Definition init {T} (items : list T) : state T :=
  {| unsubmitted := items; queued := []; running := []; finished := [];
     yielded := []; raised := None |}.

Section Run.
Context {T A : Type}.
Variable max_workers : nat.
Variable work : T -> result A.

(** What [future.result()] raises for a finished unit. *)
Definition failure (t : T) : option exn :=
  match work t with
  | Ok _ => None
  | Raise e => Some e
  end.

Definition apply (st : state T) (a : action) : option (state T * event T) :=
  match a with
  | Submit =>
      match unsubmitted st with
      | t :: rest =>
          Some ({| unsubmitted := rest; queued := queued st ++ [t];
                   running := running st; finished := finished st;
                   yielded := yielded st; raised := raised st |}, Submitted t)
      | [] => None
      end
  | Start k =>
      match queued st !! k with
      | Some t =>
          if decide (k + length (running st) < max_workers)
          then Some ({| unsubmitted := unsubmitted st; queued := delete k (queued st);
                        running := running st ++ [t]; finished := finished st;
                        yielded := yielded st; raised := raised st |}, Started t)
          else None
      | None => None
      end
  | Finish k =>
      match running st !! k with
      | Some t =>
          Some ({| unsubmitted := unsubmitted st; queued := queued st;
                   running := delete k (running st); finished := finished st ++ [t];
                   yielded := yielded st; raised := raised st |}, Finished t)
      | None => None
      end
  | Yield k =>
      match unsubmitted st, raised st, finished st !! k with
      | [], None, Some t =>
          Some ({| unsubmitted := []; queued := queued st;
                   running := running st; finished := delete k (finished st);
                   yielded := yielded st ++ [t]; raised := failure t |}, Yielded t)
      | _, _, _ => None
      end
  end.

(** The actions that can happen next. *)
Definition enabled (st : state T) : list action :=
  (match unsubmitted st with _ :: _ => [Submit] | [] => [] end) ++
  (Start <$> seq 0 (length (queued st) `min` (max_workers - length (running st)))) ++
  (Finish <$> seq 0 (length (running st))) ++
  (match unsubmitted st, raised st with
   | [], None => Yield <$> seq 0 (length (finished st))
   | _, _ => []
   end).

(** The [with] block is left: nothing queued or running, and the loop has
    taken every future or has raised. *)
Definition drained (st : state T) : Prop :=
  unsubmitted st = [] /\ queued st = [] /\ running st = [] /\
  (finished st = [] \/ raised st <> None).

(** Runs until no action is enabled, for at most [fuel] steps; the head of
    [sched] picks among the enabled actions. *)
Fixpoint run (fuel : nat) (st : state T) (sched : list nat)
    : state T * list (event T) :=
  match fuel with
  | 0 => (st, [])
  | S fuel' =>
      let acts := enabled st in
      match acts !! (hd 0 sched mod length acts) ≫= apply st with
      | Some (st', ev) =>
          let '(final, trace) := run fuel' st' (tl sched) in (final, ev :: trace)
      | None => (st, [])
      end
  end.

(** What the body of the [with] block leaves in [metadata], or raises. *)
Definition outcome (st : state T) : result (list A) :=
  match raised st with
  | Some e => Raise e
  | None => for_each work (yielded st)
  end.

(** Every item goes through four actions. *)
Definition execute (items : list T) (sched : list nat)
    : list (event T) * result (list A) :=
  let '(final, trace) := run (4 * length items) (init items) sched in
  (trace, outcome final).

End Run.
End Pool.

(** ** The fan-out coordinator *)

Section Coordinator.
Variable json_loads : string -> string + json.
Variable order : set_enumeration.

(** The body of [process_index] for a pool of [max_workers] workers;
    [ThreadPoolExecutor] refuses an empty pool. *)
Definition process_index_pool (max_workers : nat) (es : Elasticsearch)
    (index : string) (llm_client : WatsonxWrapper) (threshold : Z)
    (sched : list nat) : list (Pool.event field_detail) * result (list json) :=
  match get_fields es index with
  | Raise e => ([], Raise e)
  | Ok fields_info =>
      if decide (max_workers = 0)
      then ([], Raise (ValueError "max_workers must be greater than 0"))
      else
        Pool.execute max_workers
          (fun field_info =>
             process_field json_loads order es index field_info llm_client threshold)
          fields_info sched
  end.

Definition process_index := process_index_pool 10.

(** The loop over the indices: [scheds] holds the schedule of each pool in
    turn.  The trace tags every event with its index. *)
Fixpoint index_loop (es : Elasticsearch) (llm_client : WatsonxWrapper)
    (threshold : Z) (indices : list string) (scheds : list (list nat))
    (metadata_dict : list json)
    : list (string * Pool.event field_detail) * result (list json) :=
  match indices with
  | [] => ([], Ok metadata_dict)
  | index :: rest =>
      let '(trace, r) :=
        process_index es index llm_client threshold (hd [] scheds) in
      match r with
      | Ok metadata =>
          let '(trace', r') :=
            index_loop es llm_client threshold rest (tl scheds)
              (metadata_dict ++ metadata) in
          ((pair index <$> trace) ++ trace', r')
      | Raise e => (pair index <$> trace, Raise e)
      end
  end.

Definition generate_metadata_dictionary (es : Elasticsearch)
    (llm_client : WatsonxWrapper) (threshold : Z) (scheds : list (list nat))
    : list (string * Pool.event field_detail) * result (list json) :=
  match get_indices es with
  | Raise e => ([], Raise e)
  | Ok indices => index_loop es llm_client threshold indices scheds []
  end.

End Coordinator.

(** ** A worked deployment

    Two indices with three fields and one, a sampler that answers every request with
    the same buckets, and generators that answer with a JSON object amid
    commentary, with prose only, or not at all. *)
Module Demo.

Definition employee_properties : list (string * gmap string string) :=
  [("GenderCode", {["type" := "keyword"]});
   ("Division", {["type" := "text"]});
   ("Address", ∅)].

Definition employee_mapping : index_mapping :=
  {| mappings := {| properties := Some employee_properties |} |}.

Definition offices_mapping : index_mapping :=
  {| mappings := {| properties := Some [("City", {["type" := "keyword"]})] |} |}.

Definition gender_buckets : aggregations :=
  {| agg_frequent_terms :=
       [{| key := TStr "Male"; doc_count := 60 |};
        {| key := TStr "Female"; doc_count := 40 |}];
     agg_rare_terms := [];
     agg_significant_terms := [{| key := TStr "Male"; doc_count := 60 |}];
     agg_unique_count := 2;
     agg_sample_docs := [] |}.

Definition es : Elasticsearch :=
  {| indices_get_alias :=
       Ok [("employee_data", JObj [("aliases", JObj [])]);
           ("offices", JObj [("aliases", JObj [])])];
     indices_get_mapping := fun index =>
       if decide (index = "employee_data")
       then Ok {[index := employee_mapping]}
       else if decide (index = "offices")
       then Ok {[index := offices_mapping]}
       else Raise (NotFoundError "index_not_found_exception");
     search := fun _ _ => Ok gender_buckets |}.

Definition mentions (needle text : string) : bool :=
  bool_decide (is_Some (String.index 0 needle text)).

Definition gender_record : json :=
  JObj [("field_name", JStr "GenderCode");
        ("index_name", JStr "employee_data");
        ("data_type", JStr "keyword");
        ("natural_language_description", JStr "The gender of the employee.");
        ("sample_value", JStr "Male, Female")].

(** Answers for [GenderCode] with the record wrapped in commentary and
    for every other field with prose. *)
Definition llm : WatsonxWrapper :=
  {| generate_text := fun prompt =>
       if mentions "- Field Name: GenderCode" prompt
       then Ok ("Here you go: " +:+ JsonRef.dumps gender_record +:+ " Done." +:+ nl)
       else Ok "  I cannot describe this field.  " |}.

(** As [llm], but the request for [Division] times out. *)
Definition llm_flaky : WatsonxWrapper :=
  {| generate_text := fun prompt =>
       if mentions "- Field Name: Division" prompt
       then Raise (TransportError "Read timed out.")
       else generate_text llm prompt |}.

(** What the sampler returns for every field, and the fields and records
    of the first index. *)
Definition gender_terms : diverse_terms :=
  {| frequent_terms := [TStr "Male"; TStr "Female"];
     rare_terms := [];
     significant_terms := [TStr "Male"];
     unique_count := 2;
     sample_docs := [] |}.

Definition GenderCode : field_detail :=
  {| field_name := "GenderCode"; data_type := "keyword" |}.

Definition Division : field_detail :=
  {| field_name := "Division"; data_type := "text" |}.

Definition Address : field_detail :=
  {| field_name := "Address"; data_type := "unknown" |}.

Definition prose_record (field data_type : string) : json :=
  JObj [("field_name", JStr field);
        ("index_name", JStr "employee_data");
        ("data_type", JStr data_type);
        ("natural_language_description", JStr "I cannot describe this field.");
        ("sample_value", JStr "Male")].

Definition employee_records : list json :=
  [gender_record; prose_record "Division" "text"; prose_record "Address" "unknown"].

(** A run over both indices, with a schedule for each pool. *)
Definition scheds : list (list nat) := [[0; 0; 0; 1; 0; 2; 1]; [1; 1]].

End Demo.

(** ** The claims as the specification words them

    Reference definitions that follow the specification's text; the
    theorems below compare them with the functions above. *)

Fixpoint first_index (c : ascii) (s : list ascii) : option nat :=
  match s with
  | [] => None
  | c' :: s' => if decide (c' = c) then Some 0 else S <$> first_index c s'
  end.

Fixpoint last_index (c : ascii) (s : list ascii) : option nat :=
  match s with
  | [] => None
  | c' :: s' =>
      match last_index c s' with
      | Some j => Some (S j)
      | None => if decide (c' = c) then Some 0 else None
      end
  end.

(** The greedy brace-delimited span: from the first opening brace of the
    text to its last closing brace, when the latter comes after the former. *)
Definition brace_span (text : string) : option string :=
  let s := list_ascii_of_string text in
  i ← first_index "{" s;
  j ← last_index "}" s;
  if decide (i < j)
  then Some (string_of_list_ascii (take (j + 1 - i) (drop i s)))
  else None.

(** The aggregations of a request body, by name. *)
Definition aggregations_of (body : json) : list (string * json) :=
  match body with
  | JObj members =>
      match member "aggs" members with
      | Some (JObj aggs) => aggs
      | _ => []
      end
  | _ => []
  end.

(** The [field] parameter of an aggregation, when it has one. *)
Definition target_of (agg : json) : option json :=
  match agg with
  | JObj [(_, JObj params)] => member "field" params
  | _ => None
  end.

(** The last clause of the field-resolution claim as worded: every
    aggregation of the request names the resolved target. *)
Definition all_aggregations_target (field data_type : string) (size : Z) : Prop :=
  Forall (fun agg => target_of agg.2 = Some (JStr (agg_field field data_type)))
    (aggregations_of (query field data_type size)).

(** The key of a metadata record. *)
Definition record_key (record : json) : option json * option json :=
  match record with
  | JObj members => (member "field_name" members, member "index_name" members)
  | _ => (None, None)
  end.

(** The work items of each kind of event in a trace. *)
Definition submitted {T} (trace : list (Pool.event T)) : list T :=
  omap (fun ev => match ev with Pool.Submitted t => Some t | _ => None end) trace.

Definition started {T} (trace : list (Pool.event T)) : list T :=
  omap (fun ev => match ev with Pool.Started t => Some t | _ => None end) trace.

Definition completed {T} (trace : list (Pool.event T)) : list T :=
  omap (fun ev => match ev with Pool.Finished t => Some t | _ => None end) trace.

(** The transport-failure claim as worded: a unit that raises costs its
    own record only, the records of the other fields are returned. *)
Definition surfaces_per_unit_failure (json_loads : string -> string + json)
    (order : set_enumeration) (es : Elasticsearch) (index : string) (llm_client : WatsonxWrapper)
    (threshold : Z) (sched : list nat) : Prop :=
  forall fields_info failed msg,
    get_fields es index = Ok fields_info ->
    failed ∈ fields_info ->
    process_field json_loads order es index failed llm_client threshold
      = Raise (TransportError msg) ->
    exists metadata,
      (process_index json_loads order es index llm_client threshold sched).2 = Ok metadata /\
      forall field_info record,
        field_info ∈ fields_info ->
        process_field json_loads order es index field_info llm_client threshold = Ok record ->
        record ∈ metadata.

(** Bookkeeping for the pool proofs. *)
Definition all_items {T} (st : Pool.state T) : list T :=
  Pool.unsubmitted st ++ Pool.queued st ++ Pool.running st ++
  Pool.finished st ++ Pool.yielded st.

(** What is left to do: four actions for an item not yet submitted, down
    to one for a finished item whose future has not been taken. *)
Definition measure {T} (st : Pool.state T) : nat :=
  4 * length (Pool.unsubmitted st) + 3 * length (Pool.queued st) +
  2 * length (Pool.running st) + length (Pool.finished st).

Definition after_submit {T} (st : Pool.state T) : list T :=
  Pool.queued st ++ Pool.running st ++ Pool.finished st ++ Pool.yielded st.

Definition after_start {T} (st : Pool.state T) : list T :=
  Pool.running st ++ Pool.finished st ++ Pool.yielded st.

Definition after_finish {T} (st : Pool.state T) : list T :=
  Pool.finished st ++ Pool.yielded st.

(** The exception that ended the loop is the one of a future it took;
    while none has, every future taken so far held a result. *)
Definition sound {T A} (work : T -> result A) (st : Pool.state T) : Prop :=
  match Pool.raised st with
  | Some e => exists t, t ∈ Pool.yielded st /\ work t = Raise e
  | None => Forall (fun t => Pool.failure work t = None) (Pool.yielded st)
  end.

(** The result a unit of work returns, when it returns one. *)
Definition value {T A} (work : T -> result A) (t : T) : option A :=
  match work t with
  | Ok v => Some v
  | Raise _ => None
  end.

(** The futures that [as_completed] handed over, in that order. *)
Definition handed_over {T} (trace : list (Pool.event T)) : list T :=
  omap (fun ev => match ev with Pool.Yielded t => Some t | _ => None end) trace.

(** A sequence of pool actions from one state to another, with its trace. *)
Inductive pool_steps {T A} (max_workers : nat) (work : T -> result A)
    : Pool.state T -> list (Pool.event T) -> Pool.state T -> Prop :=
| pool_steps_nil st : pool_steps max_workers work st [] st
| pool_steps_cons st a st' ev trace st'' :
    Pool.apply max_workers work st a = Some (st', ev) ->
    pool_steps max_workers work st' trace st'' ->
    pool_steps max_workers work st (ev :: trace) st''.

(** The loop over [as_completed] stops at the first future that raises:
    the exception it leaves with is the one of the last future taken, and
    every future taken before held a result. *)
Definition loop_sound {T A} (work : T -> result A) (st : Pool.state T) : Prop :=
  match Pool.raised st with
  | Some e =>
      exists ys t,
        Pool.yielded st = ys ++ [t] /\
        Forall (fun t => Pool.failure work t = None) ys /\
        work t = Raise e
  | None => Forall (fun t => Pool.failure work t = None) (Pool.yielded st)
  end.

(** ** Edge deployments

    An index whose mapping has no properties, and an alias whose mapping
    request answers under the name of the index behind it. *)
Module DemoEdge.

Definition bare_mapping : index_mapping :=
  {| mappings := {| properties := None |} |}.

Definition es_bare : Elasticsearch :=
  {| indices_get_alias := Ok [("archive", JObj [("aliases", JObj [])])];
     indices_get_mapping := fun index => Ok {[index := bare_mapping]};
     search := fun _ _ => Raise (TransportError "Connection refused.") |}.

Definition es_alias : Elasticsearch :=
  {| indices_get_alias := Ok [("staff", JObj [("aliases", JObj [])])];
     indices_get_mapping := fun _ => Ok {["employee_data" := Demo.employee_mapping]};
     search := fun _ _ => Ok Demo.gender_buckets |}.

(** The record of the one field of the second index of [Demo.es]. *)
Definition offices_records : list json :=
  [JObj [("field_name", JStr "City");
         ("index_name", JStr "offices");
         ("data_type", JStr "keyword");
         ("natural_language_description", JStr "I cannot describe this field.");
         ("sample_value", JStr "Male")]].

(** The match of the pattern in a text with two objects. *)
Definition two_objects_match : Re.match_object :=
  {| Re.whole := list_ascii_of_string "{} b {}";
     Re.groups := {[1 := list_ascii_of_string "{} b {}"]} |}.

End DemoEdge.

(** ** JSON extraction *)

Section Extraction.
Variable json_loads : string -> string + json.

Lemma backtrack_Lit_cons {R} c c' s caps (k : Re.cont R) :
  Re.backtrack (Lit c) (c' :: s) caps k =
  if decide (c' = c) then k s caps else None.
Proof. reflexivity. Qed.

Lemma backtrack_Seq {R} r1 r2 s caps (k : Re.cont R) :
  Re.backtrack (Seq r1 r2) s caps k =
  Re.backtrack r1 s caps (fun s' caps' => Re.backtrack r2 s' caps' k).
Proof. reflexivity. Qed.

Lemma backtrack_Star {R} r s caps (k : Re.cont R) :
  Re.backtrack (Star r) s caps k =
  Re.star_loop (Re.backtrack r) (length s) s caps k.
Proof. reflexivity. Qed.

Lemma backtrack_Group {R} n r s caps (k : Re.cont R) :
  Re.backtrack (Group n r) s caps k =
  Re.backtrack r s caps (fun s' caps' =>
    k s' (<[n := take (length s - length s') s]> caps')).
Proof. reflexivity. Qed.

Lemma backtrack_any_char {R} (c : ascii) (s : list ascii) caps (k : Re.cont R) :
  Re.backtrack any_char (c :: s) caps k = k s caps.
Proof.
  unfold any_char. simpl. destruct (decide (c = newline)) as [->|Hc]; [done|].
  by destruct (k s caps).
Qed.

Lemma last_index_lt c s j : last_index c s = Some j -> j < length s.
Proof.
  revert j. induction s as [|c' s IH]; intros j; simpl; [done|].
  destruct (last_index c s) as [j'|].
  - intros [= <-]. specialize (IH _ eq_refl). lia.
  - case_decide; intros [= <-]. lia.
Qed.

Lemma last_index_drop c s k :
  last_index c (drop k s) =
  j ← last_index c s; if decide (k <= j) then Some (j - k) else None.
Proof.
  revert k. induction s as [|c' s IH]; intros [|k]; simpl; try done.
  - destruct (last_index c s) as [j|]; simpl; [done|].
    by case_decide.
  - rewrite IH. destruct (last_index c s) as [j|]; simpl.
    + repeat case_decide; try lia; done.
    + by case_decide.
Qed.

(** The greedy star followed by the closing brace stops at the last
    closing brace of the input. *)
Lemma star_then_close {R} (s : list ascii) (fuel : nat) caps (k : Re.cont R) :
  length s <= fuel ->
  (forall s' caps', is_Some (k s' caps')) ->
  Re.star_loop (Re.backtrack any_char) fuel s caps
    (fun s' caps' => Re.backtrack (Lit "}") s' caps' k)
  = j ← last_index "}" s; k (drop (S j) s) caps.
Proof.
  intros Hfuel Hk. revert fuel Hfuel.
  induction s as [|c s IH]; intros fuel Hfuel.
  - by destruct fuel.
  - destruct fuel as [|fuel]; simpl in Hfuel; [lia|].
    cbn [Re.star_loop]. rewrite backtrack_any_char.
    rewrite decide_True by (simpl; lia).
    rewrite IH by lia. cbn [last_index].
    destruct (last_index "}" s) as [j|] eqn:Hj; simpl.
    + by destruct (Hk (drop (S j) s) caps) as [m ->].
    + by case_decide.
Qed.

Lemma match_at_pattern (s : list ascii) :
  Re.match_at pattern s =
  match s with
  | c :: rest =>
      if decide (c = "{"%char) then
        j ← last_index "}" rest;
        Some {| Re.whole := take (S (S j)) s;
                Re.groups := {[1 := take (S (S j)) s]} |}
      else None
  | [] => None
  end.
Proof.
  destruct s as [|c rest]; [done|].
  unfold Re.match_at, pattern.
  rewrite backtrack_Group, backtrack_Seq, backtrack_Lit_cons.
  case_decide; [|done].
  rewrite backtrack_Seq, backtrack_Star.
  rewrite star_then_close; [|done|by eauto].
  destruct (last_index "}" rest) as [j|] eqn:Hj; [|done]. simpl.
  apply last_index_lt in Hj.
  rewrite length_drop.
  replace (S (length rest) - (length rest - S j)) with (S (S j)) by lia.
  by rewrite insert_empty.
Qed.

Lemma search_from_pattern (s : list ascii) :
  Re.search_from pattern s =
  i ← first_index "{" s;
  j ← last_index "}" (drop (S i) s);
  Some {| Re.whole := take (S (S j)) (drop i s);
          Re.groups := {[1 := take (S (S j)) (drop i s)]} |}.
Proof.
  induction s as [|c s IH]; [done|].
  cbn [Re.search_from]. rewrite match_at_pattern. cbn [first_index].
  case_decide as Hc.
  - simpl. rewrite drop_0. destruct (last_index "}" s) as [j|] eqn:Hj; [done|]. simpl.
    rewrite IH. destruct (first_index "{" s) as [i|]; [|done]. simpl.
    by rewrite last_index_drop, Hj.
  - rewrite IH. by destruct (first_index "{" s).
Qed.

Lemma first_index_lookup c s i : first_index c s = Some i -> s !! i = Some c.
Proof.
  revert i. induction s as [|c' s IH]; intros i; simpl; [done|].
  case_decide as Hc; [by intros [= <-]; subst|].
  destruct (first_index c s) as [i'|]; intros [= <-]. by apply IH.
Qed.

Lemma last_index_lookup c s j : last_index c s = Some j -> s !! j = Some c.
Proof.
  revert j. induction s as [|c' s IH]; intros j; simpl; [done|].
  destruct (last_index c s) as [j'|].
  - intros [= <-]. by apply IH.
  - case_decide; intros [= <-]. by subst.
Qed.

(** The pattern finds the greedy brace-delimited span. *)
Lemma search_pattern (text : string) :
  Re.search pattern text ≫= (fun m => Re.group m 1) = brace_span text /\
  (is_Some (Re.search pattern text) <-> is_Some (brace_span text)) /\
  (forall m, Re.search pattern text = Some m -> is_Some (Re.group m 1)).
Proof.
  unfold Re.search, brace_span. rewrite search_from_pattern.
  set (s := list_ascii_of_string text).
  destruct (first_index "{" s) as [i|] eqn:Hi; simpl;
    [|split_and!; [done|by split; intros [? [=]]|done]].
  rewrite last_index_drop.
  destruct (last_index "}" s) as [j|] eqn:Hj; simpl;
    [|split_and!; [done|by split; intros [? [=]]|done]].
  assert (i <> j) as Hij.
  { intros ->. apply first_index_lookup in Hi. apply last_index_lookup in Hj.
    by rewrite Hi in Hj. }
  destruct (decide (S i <= j)); destruct (decide (i < j)); try lia; simpl.
  - unfold Re.group; simpl. rewrite lookup_singleton_eq. simpl.
    replace (S (S (j - S i))) with (j + 1 - i) by lia.
    split_and!; [done|by split; eauto|].
    intros m [= <-]. simpl. rewrite lookup_singleton_eq. by eauto.
  - split_and!; [done|by split; intros [? [=]]|done].
Qed.

Lemma extract_json_spec (text : string) :
  extract_json json_loads text =
  match brace_span text with
  | Some span =>
      match json_loads span with
      | inr value => Ok value
      | inl e => Raise (ValueError ("Error parsing JSON: " +:+ e))
      end
  | None => Raise (ValueError "No JSON object found in the text.")
  end.
Proof.
  destruct (search_pattern text) as (Hspan & Hsome & Hgroup).
  unfold extract_json.
  destruct (Re.search pattern text) as [m|] eqn:Hm; simpl in Hspan.
  - destruct (Hgroup m eq_refl) as [span Hg]. rewrite Hg in Hspan |- *.
    by rewrite <- Hspan.
  - by rewrite <- Hspan.
Qed.

End Extraction.

Section Requester.
Variable json_loads : string -> string + json.
Variable order : set_enumeration.

(** C2: JSON extraction has exactly three outcomes.  When the text holds a
    brace-delimited span (first opening brace to last closing brace) that
    parses, the parsed value is returned as it is; when the span does not
    parse, a ValueError naming the parse failure is raised; when there is
    no such span, a ValueError saying that no JSON object was found is
    raised. *)
Theorem extract_json_three_outcomes (text : string) :
  match brace_span text with
  | Some span =>
      match json_loads span with
      | inr value => extract_json json_loads text = Ok value
      | inl e =>
          extract_json json_loads text
          = Raise (ValueError ("Error parsing JSON: " +:+ e))
      end
  | None =>
      extract_json json_loads text
      = Raise (ValueError "No JSON object found in the text.")
  end.
Proof.
  rewrite extract_json_spec.
  destruct (brace_span text) as [span|]; [|done].
  by destruct (json_loads span).
Qed.

Lemma last_index_snoc c l : last_index c (l ++ [c]) = Some (length l).
Proof.
  induction l as [|c' l IH]; simpl.
  - by rewrite decide_True.
  - by rewrite IH.
Qed.

Lemma last_snoc_inv {A} (s : list A) (c : A) :
  last s = Some c -> exists l, s = l ++ [c].
Proof.
  destruct s as [|x s _] using rev_ind; [done|].
  rewrite last_snoc. intros [= ->]. by eexists.
Qed.

(** A text that opens with a brace and closes with one is its own span. *)
Lemma brace_span_whole (text : string) :
  head (list_ascii_of_string text) = Some "{"%char ->
  last (list_ascii_of_string text) = Some "}"%char ->
  brace_span text = Some text.
Proof.
  unfold brace_span. intros Hhead Hlast.
  destruct (last_snoc_inv _ _ Hlast) as [l Hl].
  rewrite Hl in Hhead |- *. rewrite last_index_snoc.
  destruct l as [|c l]; [done|]. simpl in Hhead. injection Hhead as ->.
  simpl. rewrite take_ge by (rewrite length_app; simpl; lia).
  change (String "{" (string_of_list_ascii (l ++ ["}"%char])))
    with (string_of_list_ascii (("{"%char :: l) ++ ["}"%char])).
  by rewrite <- Hl, string_of_list_ascii_of_string.
Qed.

(** C8: extraction undoes serialization.  For a value [x] whose
    serialization is brace-delimited (an object) and is read back as [x]
    by the parser, extracting from the serialization returns [x]. *)
Theorem extract_json_roundtrip (json_dumps : json -> string) (x : json) :
  head (list_ascii_of_string (json_dumps x)) = Some "{"%char ->
  last (list_ascii_of_string (json_dumps x)) = Some "}"%char ->
  json_loads (json_dumps x) = inr x ->
  extract_json json_loads (json_dumps x) = Ok x.
Proof.
  intros Hhead Hlast Hloads.
  rewrite extract_json_spec, brace_span_whole by done.
  by rewrite Hloads.
Qed.

Lemma first_index_None c s : c ∉ s -> first_index c s = None.
Proof.
  induction s as [|c' s IH]; [done|].
  rewrite not_elem_of_cons. intros [Hne Hs]. simpl.
  rewrite decide_False by done. by rewrite IH.
Qed.

Lemma extract_json_no_brace (text : string) :
  "{"%char ∉ list_ascii_of_string text ->
  extract_json json_loads text
  = Raise (ValueError "No JSON object found in the text.").
Proof.
  intros Hno. rewrite extract_json_spec. unfold brace_span.
  by rewrite first_index_None.
Qed.

(** C3: the malformed-response fallback.  When the sampler and the
    generator answer and the stripped generation text makes extraction
    raise a format error (as every text without braces does), the unit of
    work returns the record built from its inputs: the field, the index,
    the data type, the stripped text as description, and the first
    sample of the deduplicated list, in the order the interpreter
    enumerates the set, or the empty string; no exception leaves the unit. *)
Theorem process_field_fallback (es : Elasticsearch) (index : string)
    (fd : field_detail) (llm : WatsonxWrapper) (threshold : Z)
    (terms : diverse_terms) (raw : string) :
  get_diverse_terms es index (field_name fd) (data_type fd) threshold = Ok terms ->
  generate_text llm
    (generate_prompt index (field_name fd) (data_type fd)
       (combined_samples order terms threshold)) = Ok raw ->
  ((exists msg, extract_json json_loads (strip raw) = Raise (ValueError msg)) \/
   (("{"%char ∉ list_ascii_of_string (strip raw)) /\
    ("}"%char ∉ list_ascii_of_string (strip raw)))) ->
  process_field json_loads order es index fd llm threshold =
  Ok (JObj [
    ("field_name", JStr (field_name fd));
    ("index_name", JStr index);
    ("data_type", JStr (data_type fd));
    ("natural_language_description", JStr (strip raw));
    ("sample_value",
      match combined_samples order terms threshold with
      | first :: _ => json_of_term first
      | [] => JStr ""
      end)]).
Proof.
  intros Hterms Hraw Hformat.
  assert (exists msg, extract_json json_loads (strip raw) = Raise (ValueError msg))
    as [msg Hmsg].
  { destruct Hformat as [?|[Hopen _]]; [done|].
    eexists. by apply extract_json_no_brace. }
  unfold process_field. rewrite Hterms. simpl. rewrite Hraw. simpl.
  by rewrite Hmsg.
Qed.

Lemma length_slice_to {A} (xs : list A) (stop : Z) :
  (0 <= stop)%Z -> (Z.of_nat (length (slice_to xs stop)) <= stop)%Z.
Proof.
  intros Hstop. unfold slice_to. rewrite decide_True by done.
  rewrite length_take. lia.
Qed.

Lemma slice_to_sublist {A} (xs : list A) (stop : Z) : slice_to xs stop `sublist_of` xs.
Proof. unfold slice_to. case_decide; apply sublist_take. Qed.

(** C4: deduplication and truncation.  For a threshold that is not
    negative, the sample list that the unit of work passes to prompt
    construction has no duplicates, at most [threshold] entries, and only
    values from the three term lists. *)
Theorem combined_samples_dedup_bounded (es : Elasticsearch) (index : string)
    (fd : field_detail) (llm : WatsonxWrapper) (threshold : Z)
    (terms : diverse_terms) :
  (0 <= threshold)%Z ->
  get_diverse_terms es index (field_name fd) (data_type fd) threshold = Ok terms ->
  exists samples : list term,
    NoDup samples /\
    (Z.of_nat (length samples) <= threshold)%Z /\
    (forall x, x ∈ samples ->
       x ∈ frequent_terms terms ++ rare_terms terms ++ significant_terms terms) /\
    process_field json_loads order es index fd llm threshold =
      (raw ← generate_text llm
               (generate_prompt index (field_name fd) (data_type fd) samples);
       try_except_ValueError
         (extract_json json_loads (strip raw))
         (Ok (fallback index (field_name fd) (data_type fd) (strip raw) samples))).
Proof.
  intros Hthreshold Hterms. exists (combined_samples order terms threshold).
  split_and!.
  - unfold combined_samples, list_of_set.
    eapply sublist_NoDup; [|apply slice_to_sublist]. apply enumerate_NoDup.
  - by apply length_slice_to.
  - intros x Hx. unfold combined_samples, list_of_set in Hx.
    eapply elem_of_sublist in Hx; [|apply slice_to_sublist].
    by apply enumerate_elem in Hx.
  - unfold process_field. by rewrite Hterms.
Qed.

End Requester.

(** ** The field sampler *)

(** C5 as worded fails on its last clause: the top-hits aggregation of the
    request names no field. *)
Lemma top_hits_names_no_field : ~ all_aggregations_target "Division" "text" 20.
Proof.
  unfold all_aggregations_target. rewrite Forall_forall. intros Hall.
  specialize (Hall ("sample_docs", JObj [("top_hits", JObj [("size", JNum 3)])])).
  simpl in Hall. discriminate Hall. set_solver.
Qed.

(** C5, amended: the aggregation target is the field name with the suffix
    [.keyword] for the data type [text] and the field name itself for any
    other data type; the request that [get_diverse_terms] sends holds five
    aggregations, of which the four over field values (frequent, rare and
    significant terms, cardinality) name that target and the fifth, the
    sample documents, names no field. *)
Theorem aggregation_target_resolved (es : Elasticsearch)
    (index field data_type : string) (size : Z) :
  let target := if decide (data_type = "text") then field +:+ ".keyword" else field in
  agg_field field data_type = target /\
  (fun agg => (agg.1, target_of agg.2)) <$> aggregations_of (query field data_type size)
    = [("frequent_terms", Some (JStr target));
       ("rare_terms", Some (JStr target));
       ("significant_terms", Some (JStr target));
       ("unique_count", Some (JStr target));
       ("sample_docs", None)] /\
  get_diverse_terms es index field data_type size =
    (response ← search es index (query field data_type size);
     Ok {| frequent_terms := key <$> agg_frequent_terms response;
           rare_terms := key <$> agg_rare_terms response;
           significant_terms := key <$> agg_significant_terms response;
           unique_count := agg_unique_count response;
           sample_docs := agg_sample_docs response |}).
Proof. by split_and!. Qed.

(** ** The worker pool *)

Section PoolFacts.
Context {T A : Type}.
Variable max_workers : nat.
Variable work : T -> result A.

Lemma apply_inv (st st' : Pool.state T) (a : Pool.action) (ev : Pool.event T) :
  Pool.apply max_workers work st a = Some (st', ev) ->
  all_items st' ≡ₚ all_items st /\
  measure st' < measure st /\
  after_submit st' ≡ₚ submitted [ev] ++ after_submit st /\
  after_start st' ≡ₚ started [ev] ++ after_start st /\
  after_finish st' ≡ₚ completed [ev] ++ after_finish st /\
  (sound work st -> sound work st').
Proof.
  unfold all_items, measure, after_submit, after_start, after_finish, sound.
  destruct st as [u q r f y e], a as [| |k|k]; simpl.
  - destruct u as [|t u]; intros [= <- <-]; simpl.
    split_and!; try done; try lia; try solve_Permutation.
    rewrite length_app; simpl; lia.
  - destruct (q !! k) as [t|] eqn:Hk; [|done].
    case_decide; intros [= <- <-]; simpl.
    apply delete_Permutation in Hk.
    remember (delete k q) as q' eqn:Hq'. clear Hq'.
    split_and!; try done; rewrite ?Hk; simpl; rewrite ?length_app; simpl;
      try lia; solve_Permutation.
  - destruct (r !! k) as [t|] eqn:Hk; intros [= <- <-]; simpl.
    apply delete_Permutation in Hk.
    remember (delete k r) as r' eqn:Hr'. clear Hr'.
    split_and!; try done; rewrite ?Hk; simpl; rewrite ?length_app; simpl;
      try lia; solve_Permutation.
  - destruct u as [|? ?]; [|done]. destruct e as [e|]; [done|].
    destruct (f !! k) as [t|] eqn:Hk; intros [= <- <-]; simpl.
    apply delete_Permutation in Hk.
    remember (delete k f) as f' eqn:Hf'. clear Hf'.
    split_and!; try (rewrite ?Hk; simpl; try lia; solve_Permutation).
    intros Hy. destruct (Pool.failure work t) as [e|] eqn:Ht.
    + exists t. split; [set_solver|].
      unfold Pool.failure in Ht. destruct (work t); congruence.
    + apply Forall_app. by split; [|apply Forall_singleton].
Qed.

Lemma enabled_apply (st : Pool.state T) (a : Pool.action) :
  a ∈ Pool.enabled max_workers st -> is_Some (Pool.apply max_workers work st a).
Proof.
  unfold Pool.enabled. rewrite !elem_of_app.
  destruct st as [u q r f y e]; simpl. intros [H|[H|[H|H]]].
  - destruct u; [by apply elem_of_nil in H|].
    apply list_elem_of_singleton in H as ->. by eexists.
  - apply list_elem_of_fmap in H as (k & -> & Hk%elem_of_seq). simpl.
    destruct (lookup_lt_is_Some_2 q k) as [t ->]; [lia|].
    rewrite decide_True by lia. by eexists.
  - apply list_elem_of_fmap in H as (k & -> & Hk%elem_of_seq). simpl.
    destruct (lookup_lt_is_Some_2 r k) as [t ->]; [lia|]. by eexists.
  - destruct u; [|by apply elem_of_nil in H].
    destruct e; [by apply elem_of_nil in H|].
    apply list_elem_of_fmap in H as (k & -> & Hk%elem_of_seq). simpl.
    destruct (lookup_lt_is_Some_2 f k) as [t ->]; [lia|]. by eexists.
Qed.

Lemma enabled_nil_drained (st : Pool.state T) :
  0 < max_workers -> Pool.enabled max_workers st = [] -> Pool.drained st.
Proof.
  unfold Pool.enabled, Pool.drained.
  destruct st as [u q r f y e]; simpl. intros Hw Hnil.
  apply app_eq_nil in Hnil as [Hu Hnil]. destruct u; [|done].
  apply app_eq_nil in Hnil as [Hq Hnil].
  apply app_eq_nil in Hnil as [Hr Hf].
  destruct r; [|done]. simpl in Hq.
  destruct q; [|by destruct max_workers; [lia|]].
  destruct e; [by auto|]. destruct f; [by auto|done].
Qed.

Lemma measure_0_drained (st : Pool.state T) : measure st = 0 -> Pool.drained st.
Proof.
  unfold measure, Pool.drained. destruct st as [u q r f y e]; simpl.
  destruct u, q, r, f; simpl; try lia. by auto.
Qed.

(** Every run ends with the pool drained, whatever the schedule, and its
    trace accounts for each item's progress. *)
Lemma run_inv (fuel : nat) (st final : Pool.state T) (sched : list nat)
    (trace : list (Pool.event T)) :
  Pool.run max_workers work fuel st sched = (final, trace) ->
  all_items final ≡ₚ all_items st /\
  after_submit final ≡ₚ submitted trace ++ after_submit st /\
  after_start final ≡ₚ started trace ++ after_start st /\
  after_finish final ≡ₚ completed trace ++ after_finish st /\
  (sound work st -> sound work final) /\
  (0 < max_workers -> measure st <= fuel -> Pool.drained final).
Proof.
  revert st final sched trace.
  induction fuel as [|fuel IH]; intros st final sched trace; simpl.
  { intros [= <- <-]. split_and!; try done. intros _ ?. apply measure_0_drained. lia. }
  destruct (Pool.enabled max_workers st !! _) as [a|] eqn:Ha; simpl.
  - destruct (enabled_apply st a) as [[st' ev] Hev];
      [by eapply list_elem_of_lookup_2|].
    rewrite Hev.
    destruct (Pool.run max_workers work fuel st' (tl sched)) as [final' trace'] eqn:Hrun.
    intros [= <- <-].
    apply apply_inv in Hev as (Hall & Hm & Hs & Hr & Hf & Hsound).
    apply IH in Hrun as (Hall' & Hs' & Hr' & Hf' & Hsound' & Hdrained).
    split_and!.
    + by rewrite Hall'.
    + rewrite Hs', Hs. unfold submitted. clear. destruct ev; simpl; solve_Permutation.
    + rewrite Hr', Hr. unfold started. clear. destruct ev; simpl; solve_Permutation.
    + rewrite Hf', Hf. unfold completed. clear. destruct ev; simpl; solve_Permutation.
    + by auto.
    + intros ? ?. apply Hdrained; [done|lia].
  - intros [= <- <-]. split_and!; try done. intros Hw _.
    apply enabled_nil_drained; [done|].
    destruct (Pool.enabled max_workers st) as [|a acts] eqn:Hacts; [done|].
    apply lookup_ge_None in Ha.
    pose proof (Nat.mod_upper_bound (hd 0 sched) (length (a :: acts))) as Hlt.
    simpl in *. lia.
Qed.

Lemma for_each_value (items : list T) :
  Forall (fun t => Pool.failure work t = None) items ->
  for_each work items = Ok (omap (value work) items).
Proof.
  induction 1 as [|t items Ht _ IH]; [done|].
  simpl. unfold Pool.failure in Ht. unfold value at 1.
  destruct (work t) as [v|]; [|done]. simpl. by rewrite IH.
Qed.

Lemma for_each_Ok_inv (items : list T) (values : list A) :
  for_each work items = Ok values ->
  Forall (fun t => Pool.failure work t = None) items /\
  values = omap (value work) items.
Proof.
  revert values. induction items as [|t items IH]; intros values; simpl.
  { by intros [= <-]. }
  unfold value at 1. destruct (work t) as [v|] eqn:Ht; [|done]. simpl.
  destruct (for_each work items) as [vs|]; [|done]. simpl.
  intros [= <-]. destruct (IH _ eq_refl) as [? ->].
  split; [|done]. constructor; [|done]. unfold Pool.failure. by rewrite Ht.
Qed.

(** What a pool run returns and what its trace holds. *)
Lemma execute_spec (items : list T) (sched : list nat)
    (trace : list (Pool.event T)) (r : result (list A)) :
  0 < max_workers ->
  Pool.execute max_workers work items sched = (trace, r) ->
  submitted trace ≡ₚ items /\ started trace ≡ₚ items /\ completed trace ≡ₚ items /\
  match r with
  | Ok values =>
      Forall (fun t => Pool.failure work t = None) items /\
      exists order, order ≡ₚ items /\ values = omap (value work) order
  | Raise e => exists t, t ∈ items /\ work t = Raise e
  end.
Proof.
  intros Hw. unfold Pool.execute.
  destruct (Pool.run _ _ _ _ _) as [final trace'] eqn:Hrun. intros [= <- <-].
  apply run_inv in Hrun as (Hall & Hs & Hr & Hf & Hsound & Hdrained).
  destruct Hdrained as (Hu & Hq & Hrun & Hdone);
    [done|unfold measure; simpl; lia|].
  specialize (Hsound (Forall_nil_2 _)).
  unfold all_items, after_submit, after_start, after_finish, sound, Pool.outcome in *.
  rewrite Hu, Hq, Hrun in *. simpl in *. rewrite !app_nil_r in *.
  split_and!.
  - by rewrite <- Hs, Hall.
  - by rewrite <- Hr, Hall.
  - by rewrite <- Hf, Hall.
  - destruct (Pool.raised final) as [e|].
    + destruct Hsound as (t & Ht & He). exists t. split; [|done].
      rewrite <- Hall. apply elem_of_app. by right.
    + destruct Hdone as [Hdone|]; [|done]. rewrite Hdone in Hall. simpl in Hall.
      rewrite for_each_value by done.
      split; [by rewrite <- Hall|]. by exists (Pool.yielded final).
Qed.

End PoolFacts.

(** ** The fan-out coordinator *)

Section CoordinatorFacts.
Variable json_loads : string -> string + json.
Variable order : set_enumeration.

Lemma process_index_pool_execute (max_workers : nat) (es : Elasticsearch)
    (index : string) (llm : WatsonxWrapper) (threshold : Z) (sched : list nat)
    (fields : list field_detail) :
  0 < max_workers ->
  get_fields es index = Ok fields ->
  process_index_pool json_loads order max_workers es index llm threshold sched =
  Pool.execute max_workers
    (fun fi => process_field json_loads order es index fi llm threshold) fields sched.
Proof.
  intros Hw Hfields. unfold process_index_pool. rewrite Hfields.
  by rewrite decide_False by lia.
Qed.

Lemma for_each_length {T A} (work : T -> result A) (items : list T) (values : list A) :
  for_each work items = Ok values -> length values = length items.
Proof.
  revert values. induction items as [|t items IH]; intros values; simpl.
  { by intros [= <-]. }
  destruct (work t); [|done]. simpl.
  destruct (for_each work items); [|done]. simpl.
  intros [= <-]. simpl. by rewrite (IH _ eq_refl).
Qed.

(** A pool of any positive size returns the records of the fields, in
    some order, when every unit returns one, and raises otherwise. *)
Lemma process_index_pool_result (max_workers : nat) (es : Elasticsearch)
    (index : string) (llm : WatsonxWrapper) (threshold : Z) (sched : list nat)
    (fields : list field_detail) :
  0 < max_workers ->
  get_fields es index = Ok fields ->
  let work fi := process_field json_loads order es index fi llm threshold in
  match for_each work fields with
  | Ok records =>
      exists metadata,
        (process_index_pool json_loads order max_workers es index llm threshold sched).2
          = Ok metadata /\
        metadata ≡ₚ records
  | Raise _ =>
      exists fi e,
        fi ∈ fields /\ work fi = Raise e /\
        (process_index_pool json_loads order max_workers es index llm threshold sched).2
          = Raise e
  end.
Proof.
  intros Hw Hfields work.
  rewrite (process_index_pool_execute _ _ _ _ _ _ fields) by done. fold work.
  destruct (Pool.execute max_workers work fields sched) as [trace r] eqn:Hexec.
  apply execute_spec in Hexec as (_ & _ & _ & Hr); [|done]. simpl.
  destruct (for_each work fields) as [records|e0] eqn:Hseq.
  - apply for_each_Ok_inv in Hseq as [Hok ->].
    destruct r as [values|e].
    + destruct Hr as (_ & taken & Horder & ->). eexists. split; [done|].
      by rewrite Horder.
    + destruct Hr as (t & Ht & He). rewrite Forall_forall in Hok.
      specialize (Hok t Ht). unfold Pool.failure in Hok. by rewrite He in Hok.
  - destruct r as [values|e].
    + destruct Hr as (Hok & _). by rewrite (for_each_value _ _ Hok) in Hseq.
    + destruct Hr as (t & Ht & He). by exists t, e.
Qed.

(** C1: one record per field.  When the schema of the index is read and
    every field is processed without failure, the collection that
    [process_index] returns is, for every schedule of the pool, a
    rearrangement of the per-field records: as many records as fields,
    none dropped and none duplicated. *)
Theorem process_index_one_record_per_field (es : Elasticsearch) (index : string)
    (llm : WatsonxWrapper) (threshold : Z) (fields : list field_detail)
    (records : list json) (sched : list nat) :
  get_fields es index = Ok fields ->
  for_each (fun fi => process_field json_loads order es index fi llm threshold) fields
    = Ok records ->
  exists metadata,
    (process_index json_loads order es index llm threshold sched).2 = Ok metadata /\
    metadata ≡ₚ records /\
    length metadata = length fields.
Proof.
  intros Hfields Hseq.
  pose proof (process_index_pool_result 10 es index llm threshold sched fields
                ltac:(lia) Hfields) as Hres.
  simpl in Hres. rewrite Hseq in Hres. destruct Hres as (metadata & Hrun & Hperm).
  exists metadata. split_and!; [done..|].
  rewrite Hperm. by eapply for_each_length.
Qed.

(** C6 as worded fails: with one unit timing out, the run of the index
    returns no collection at all. *)
Lemma transport_error_loses_index :
  ~ surfaces_per_unit_failure JsonRef.loads hash_order Demo.es "employee_data" Demo.llm_flaky 20 [].
Proof.
  intros Hclaim.
  destruct (Hclaim [Demo.GenderCode; Demo.Division; Demo.Address] Demo.Division
              "Read timed out." eq_refl) as (metadata & Hrun & _).
  - apply list_elem_of_further, list_elem_of_here.
  - vm_compute. reflexivity.
  - vm_compute in Hrun. discriminate Hrun.
Qed.

(** C6, amended: when a unit of work raises a TransportError, the run of
    the index raises the exception of a failed unit and returns no
    collection, for every schedule; every unit, the failed one included,
    is started once and runs to its end, so nothing is retried. *)
Theorem transport_error_aborts_index (es : Elasticsearch) (index : string)
    (llm : WatsonxWrapper) (threshold : Z) (fields : list field_detail)
    (fd : field_detail) (msg : string) (sched : list nat) :
  get_fields es index = Ok fields ->
  fd ∈ fields ->
  process_field json_loads order es index fd llm threshold = Raise (TransportError msg) ->
  (exists fd' e,
     fd' ∈ fields /\
     process_field json_loads order es index fd' llm threshold = Raise e /\
     (process_index json_loads order es index llm threshold sched).2 = Raise e) /\
  started (process_index json_loads order es index llm threshold sched).1 ≡ₚ fields /\
  completed (process_index json_loads order es index llm threshold sched).1 ≡ₚ fields.
Proof.
  intros Hfields Hfd Hraise. unfold process_index.
  rewrite (process_index_pool_execute _ _ _ _ _ _ fields) by (done || lia).
  destruct (Pool.execute _ _ _ _) as [trace r] eqn:Hexec.
  apply execute_spec in Hexec as (_ & Hstarted & Hcompleted & Hr); [|lia].
  split_and!; [|done..]. simpl.
  destruct r as [values|e].
  - destruct Hr as (Hok & _). rewrite Forall_forall in Hok.
    specialize (Hok fd Hfd). unfold Pool.failure in Hok. by rewrite Hraise in Hok.
  - destruct Hr as (t & Ht & He). by exists t, e.
Qed.

(** C7: pool sizes 1 and 10.  Over the same index and the same service
    answers, when every unit returns, the run with one worker and the run
    with ten both return, each a rearrangement of the per-field records:
    the same keys in both, each key as often as among the fields' records,
    none missing and none added, as many records as fields.  When the
    schema cannot be read both raise its error, and when some unit raises
    both raise the exception of a failed unit. *)
Theorem pool_size_1_and_10_same_keys (es : Elasticsearch) (index : string)
    (llm : WatsonxWrapper) (threshold : Z) (sched1 sched10 : list nat) :
  let work fi := process_field json_loads order es index fi llm threshold in
  let run1 := (process_index_pool json_loads order 1 es index llm threshold sched1).2 in
  let run10 := (process_index_pool json_loads order 10 es index llm threshold sched10).2 in
  match get_fields es index with
  | Raise e => run1 = Raise e /\ run10 = Raise e
  | Ok fields =>
      match for_each work fields with
      | Ok records =>
          exists metadata1 metadata10,
            run1 = Ok metadata1 /\ run10 = Ok metadata10 /\
            metadata1 ≡ₚ records /\ metadata10 ≡ₚ records /\
            record_key <$> metadata1 ≡ₚ record_key <$> metadata10 /\
            record_key <$> metadata1 ≡ₚ record_key <$> records /\
            length metadata1 = length fields /\ length metadata10 = length fields
      | Raise _ =>
          (exists fi e, fi ∈ fields /\ work fi = Raise e /\ run1 = Raise e) /\
          (exists fi e, fi ∈ fields /\ work fi = Raise e /\ run10 = Raise e)
      end
  end.
Proof.
  intros work run1 run10. subst run1 run10.
  destruct (get_fields es index) as [fields|e] eqn:Hfields;
    [|by unfold process_index_pool; rewrite Hfields].
  pose proof (process_index_pool_result 1 es index llm threshold sched1 fields
                ltac:(lia) Hfields) as H1.
  pose proof (process_index_pool_result 10 es index llm threshold sched10 fields
                ltac:(lia) Hfields) as H10.
  simpl in H1, H10. fold work in H1, H10.
  destruct (for_each work fields) as [records|e] eqn:Hseq; [|done].
  destruct H1 as (m1 & Hrun1 & Hm1), H10 as (m10 & Hrun10 & Hm10).
  exists m1, m10. split_and!; try done.
  - by rewrite Hm1, Hm10.
  - by rewrite Hm1.
  - rewrite Hm1. by eapply for_each_length.
  - rewrite Hm10. by eapply for_each_length.
Qed.





(** C10: a field without a declared type.  The field of a mapping entry
    that carries no [type] is listed with the data type [unknown], at the
    position of its entry; its aggregation target is the bare field name,
    and its unit of work is started like any other. *)
Theorem untyped_field_is_unknown (es : Elasticsearch) (index : string)
    (mapping : gmap string index_mapping) (entry : index_mapping)
    (props : list (string * gmap string string)) (i : nat) (field : string)
    (details : gmap string string) :
  indices_get_mapping es index = Ok mapping ->
  mapping !! index = Some entry ->
  properties (mappings entry) = Some props ->
  props !! i = Some (field, details) ->
  details !! "type" = None ->
  exists fields,
    get_fields es index = Ok fields /\
    length fields = length props /\
    fields !! i = Some {| field_name := field; data_type := "unknown" |} /\
    agg_field field "unknown" = field /\
    forall llm threshold sched,
      {| field_name := field; data_type := "unknown" |}
        ∈ started (process_index json_loads order es index llm threshold sched).1.
Proof.
  intros Hmapping Hentry Hprops Hi Htype.
  assert (get_fields es index =
          Ok ((fun '(field, details) =>
                 {| field_name := field;
                    data_type := default "unknown" (details !! "type") |}) <$> props))
    as Hfields.
  { unfold get_fields. rewrite Hmapping. simpl. by rewrite Hentry, Hprops. }
  eexists. split; [exact Hfields|]. split_and!.
  - by rewrite length_fmap.
  - rewrite list_lookup_fmap, Hi. simpl. by rewrite Htype.
  - done.
  - intros llm threshold sched. unfold process_index.
    rewrite (process_index_pool_execute 10 _ _ _ _ _ _ ltac:(lia) Hfields).
    destruct (Pool.execute _ _ _ _) as [trace r] eqn:Hexec.
    apply execute_spec in Hexec as (_ & -> & _); [|lia]. simpl.
    apply list_elem_of_fmap. exists (field, details).
    split; [by rewrite Htype|]. by eapply list_elem_of_lookup_2.
Qed.

End CoordinatorFacts.

(** ** The theorems at work on the worked deployment *)

(** The end-to-end scenario: the buckets Male, Female and Male again give
    a sample list of two, and the record of the generator is returned. *)
Example gender_code_scenario :
  combined_samples hash_order Demo.gender_terms 20 ≡ₚ [TStr "Male"; TStr "Female"] /\
  process_field JsonRef.loads hash_order Demo.es "employee_data" Demo.GenderCode Demo.llm 20
    = Ok Demo.gender_record.
Proof. split; [|vm_compute; reflexivity]. vm_compute. reflexivity. Qed.

(** One worker and ten, under different schedules, on the first index:
    both runs return the three records, in different orders. *)
Example pool_sizes_on_demo :
  let run1 :=
    (process_index_pool JsonRef.loads hash_order 1 Demo.es "employee_data" Demo.llm 20
       [0; 0; 0; 0; 0; 0; 0]).2 in
  let run10 :=
    (process_index_pool JsonRef.loads hash_order 10 Demo.es "employee_data" Demo.llm 20
       [0; 0; 0; 2; 0; 0; 1; 0; 0; 1]).2 in
  exists metadata1 metadata10,
    run1 = Ok metadata1 /\ run10 = Ok metadata10 /\
    metadata1 <> metadata10 /\
    record_key <$> metadata1 ≡ₚ record_key <$> metadata10.
Proof.
  do 2 eexists. split_and!; [vm_compute; reflexivity..| |].
  - vm_compute. discriminate.
  - vm_compute. symmetry. apply (Permutation_cons_append [_; _] _).
Qed.

(** A unit may begin before one submitted earlier: a worker that holds the
    first field can be overtaken by the worker that holds the second. *)
Example units_may_begin_out_of_order :
  started (process_index JsonRef.loads hash_order Demo.es "employee_data" Demo.llm 20
             [0; 0; 0; 1]).1
  = [Demo.Division; Demo.GenderCode; Demo.Address].
Proof. vm_compute. reflexivity. Qed.

(** Stripping removes the no-break space and the next-line character as
    it removes blanks. *)
Example strip_removes_latin1_space :
  strip (String (ascii_of_nat 160) ("hello " +:+ String (ascii_of_nat 133) ""))
  = "hello".
Proof. vm_compute. reflexivity. Qed.

(** The greedy span runs to the last closing brace: of two objects in one
    text it takes both and what lies between, which does not parse. *)
Example greedy_span_example :
  brace_span "a {} b {} c" = Some "{} b {}" /\
  extract_json JsonRef.loads "a {} b {} c"
    = Raise (ValueError "Error parsing JSON: Extra data").
Proof. split; vm_compute; reflexivity. Qed.

Lemma extract_json_roundtrip_witness :
  head (list_ascii_of_string (JsonRef.dumps Demo.gender_record)) = Some "{"%char /\
  last (list_ascii_of_string (JsonRef.dumps Demo.gender_record)) = Some "}"%char /\
  JsonRef.loads (JsonRef.dumps Demo.gender_record) = inr Demo.gender_record /\
  extract_json JsonRef.loads (JsonRef.dumps Demo.gender_record) = Ok Demo.gender_record.
Proof.
  split_and!; [vm_compute; reflexivity..|].
  apply (extract_json_roundtrip JsonRef.loads JsonRef.dumps Demo.gender_record);
    vm_compute; reflexivity.
Defined.

Lemma process_field_fallback_witness :
  get_diverse_terms Demo.es "employee_data" "Division" "text" 20 = Ok Demo.gender_terms /\
  generate_text Demo.llm
    (generate_prompt "employee_data" "Division" "text"
       (combined_samples hash_order Demo.gender_terms 20)) = Ok "  I cannot describe this field.  " /\
  ("{"%char ∉ list_ascii_of_string (strip "  I cannot describe this field.  ")) /\
  ("}"%char ∉ list_ascii_of_string (strip "  I cannot describe this field.  ")) /\
  process_field JsonRef.loads hash_order Demo.es "employee_data" Demo.Division Demo.llm 20
    = Ok (Demo.prose_record "Division" "text").
Proof.
  assert (forall c : ascii,
            bool_decide (c ∉ list_ascii_of_string
                               (strip "  I cannot describe this field.  ")) = true ->
            c ∉ list_ascii_of_string (strip "  I cannot describe this field.  "))
    as Hno by (intros c; apply bool_decide_eq_true_1).
  split_and!; [vm_compute; reflexivity..|apply Hno; vm_compute; reflexivity
              |apply Hno; vm_compute; reflexivity|].
  apply (process_field_fallback JsonRef.loads hash_order Demo.es "employee_data" Demo.Division
           Demo.llm 20 Demo.gender_terms "  I cannot describe this field.  ");
    [vm_compute; reflexivity..|].
  right. split; apply Hno; vm_compute; reflexivity.
Defined.

Lemma combined_samples_dedup_bounded_witness :
  (0 <= 20)%Z /\
  get_diverse_terms Demo.es "employee_data" "GenderCode" "keyword" 20
    = Ok Demo.gender_terms /\
  exists samples : list term,
    NoDup samples /\
    (Z.of_nat (length samples) <= 20)%Z /\
    (forall x, x ∈ samples ->
       x ∈ frequent_terms Demo.gender_terms ++ rare_terms Demo.gender_terms
             ++ significant_terms Demo.gender_terms) /\
    process_field JsonRef.loads hash_order Demo.es "employee_data" Demo.GenderCode Demo.llm 20 =
      (raw ← generate_text Demo.llm
               (generate_prompt "employee_data" "GenderCode" "keyword" samples);
       try_except_ValueError
         (extract_json JsonRef.loads (strip raw))
         (Ok (fallback "employee_data" "GenderCode" "keyword" (strip raw) samples))).
Proof.
  split_and!; [lia|vm_compute; reflexivity|].
  apply (combined_samples_dedup_bounded JsonRef.loads hash_order Demo.es "employee_data"
           Demo.GenderCode Demo.llm 20 Demo.gender_terms);
    [lia|vm_compute; reflexivity].
Defined.

Lemma process_index_one_record_per_field_witness :
  get_fields Demo.es "employee_data" = Ok [Demo.GenderCode; Demo.Division; Demo.Address] /\
  for_each (fun fi => process_field JsonRef.loads hash_order Demo.es "employee_data" fi Demo.llm 20)
    [Demo.GenderCode; Demo.Division; Demo.Address] = Ok Demo.employee_records /\
  exists metadata,
    (process_index JsonRef.loads hash_order Demo.es "employee_data" Demo.llm 20
       [0; 0; 0; 1; 0; 2; 1]).2 = Ok metadata /\
    metadata ≡ₚ Demo.employee_records /\
    length metadata = 3.
Proof.
  split_and!; [vm_compute; reflexivity..|].
  apply (process_index_one_record_per_field JsonRef.loads hash_order Demo.es "employee_data"
           Demo.llm 20 [Demo.GenderCode; Demo.Division; Demo.Address]
           Demo.employee_records [0; 0; 0; 1; 0; 2; 1]);
    vm_compute; reflexivity.
Defined.

Lemma transport_error_aborts_index_witness :
  get_fields Demo.es "employee_data" = Ok [Demo.GenderCode; Demo.Division; Demo.Address] /\
  Demo.Division ∈ [Demo.GenderCode; Demo.Division; Demo.Address] /\
  process_field JsonRef.loads hash_order Demo.es "employee_data" Demo.Division Demo.llm_flaky 20
    = Raise (TransportError "Read timed out.") /\
  (exists fd' e,
     fd' ∈ [Demo.GenderCode; Demo.Division; Demo.Address] /\
     process_field JsonRef.loads hash_order Demo.es "employee_data" fd' Demo.llm_flaky 20 = Raise e /\
     (process_index JsonRef.loads hash_order Demo.es "employee_data" Demo.llm_flaky 20 [2; 1]).2
       = Raise e) /\
  started (process_index JsonRef.loads hash_order Demo.es "employee_data" Demo.llm_flaky 20 [2; 1]).1
    ≡ₚ [Demo.GenderCode; Demo.Division; Demo.Address] /\
  completed (process_index JsonRef.loads hash_order Demo.es "employee_data" Demo.llm_flaky 20 [2; 1]).1
    ≡ₚ [Demo.GenderCode; Demo.Division; Demo.Address].
Proof.
  assert (Demo.Division ∈ [Demo.GenderCode; Demo.Division; Demo.Address]) as Hin
    by (apply list_elem_of_further, list_elem_of_here).
  split_and!; [vm_compute; reflexivity|exact Hin|vm_compute; reflexivity|..];
    apply (transport_error_aborts_index JsonRef.loads hash_order Demo.es "employee_data"
             Demo.llm_flaky 20 [Demo.GenderCode; Demo.Division; Demo.Address]
             Demo.Division "Read timed out." [2; 1]);
    first [exact Hin|vm_compute; reflexivity].
Defined.


Lemma untyped_field_is_unknown_witness :
  indices_get_mapping Demo.es "employee_data"
    = Ok {["employee_data" := Demo.employee_mapping]} /\
  ({["employee_data" := Demo.employee_mapping]} : gmap string index_mapping)
    !! "employee_data" = Some Demo.employee_mapping /\
  properties (mappings Demo.employee_mapping) = Some Demo.employee_properties /\
  Demo.employee_properties !! 2 = Some ("Address", ∅) /\
  (∅ : gmap string string) !! "type" = None /\
  exists fields,
    get_fields Demo.es "employee_data" = Ok fields /\
    length fields = length Demo.employee_properties /\
    fields !! 2 = Some Demo.Address /\
    agg_field "Address" "unknown" = "Address" /\
    forall llm threshold sched,
      Demo.Address
        ∈ started (process_index JsonRef.loads hash_order Demo.es "employee_data" llm threshold sched).1.
Proof.
  split_and!; [vm_compute; reflexivity..|].
  apply (untyped_field_is_unknown JsonRef.loads hash_order Demo.es "employee_data"
           {["employee_data" := Demo.employee_mapping]} Demo.employee_mapping
           Demo.employee_properties 2 "Address" ∅);
    vm_compute; reflexivity.
Defined.

(** ** More on JSON extraction *)

Section ExtractionMore.
Variable json_loads : string -> string + json.

Lemma list_ascii_of_string_app (a b : string) :
  list_ascii_of_string (a +:+ b) = list_ascii_of_string a ++ list_ascii_of_string b.
Proof. induction a as [|c a IH]; simpl; [done|]. by rewrite IH. Qed.

Lemma first_index_app c pre rest :
  c ∉ pre -> first_index c (pre ++ c :: rest) = Some (length pre).
Proof.
  induction pre as [|c' pre IH]; simpl.
  - intros _. by rewrite decide_True.
  - rewrite not_elem_of_cons. intros [Hne Hpre].
    rewrite decide_False by done. by rewrite IH.
Qed.

Lemma last_index_None c s : c ∉ s -> last_index c s = None.
Proof.
  induction s as [|c' s IH]; [done|].
  rewrite not_elem_of_cons. intros [Hne Hs]. simpl.
  rewrite IH by done. by rewrite decide_False.
Qed.

Lemma last_index_app c l post :
  c ∉ post -> last_index c (l ++ c :: post) = Some (length l).
Proof.
  intros Hpost. induction l as [|c' l IH]; simpl.
  - rewrite last_index_None by done. by rewrite decide_True.
  - by rewrite IH.
Qed.

Lemma first_index_take c s i : first_index c s = Some i -> c ∉ take i s.
Proof.
  revert i. induction s as [|c' s IH]; intros i; simpl; [done|].
  case_decide as Hc.
  - intros [= <-]. simpl. apply not_elem_of_nil.
  - destruct (first_index c s) as [i'|]; intros [= <-]. simpl.
    apply not_elem_of_cons. split; [done|]. by apply IH.
Qed.

Lemma last_index_None_inv c s : last_index c s = None -> c ∉ s.
Proof.
  induction s as [|c' s IH]; simpl; [intros _; apply not_elem_of_nil|].
  destruct (last_index c s); [done|]. case_decide; [done|]. intros _.
  apply not_elem_of_cons. split; [done|]. by apply IH.
Qed.

Lemma last_index_drop_after c s j : last_index c s = Some j -> c ∉ drop (S j) s.
Proof.
  intros Hj. apply last_index_None_inv. rewrite last_index_drop, Hj. simpl.
  rewrite decide_False by lia. done.
Qed.

Lemma first_index_le c s p :
  s !! p = Some c -> exists i, first_index c s = Some i /\ i <= p.
Proof.
  revert p. induction s as [|c' s IH]; intros p; [done|]. simpl.
  case_decide; [intros _; exists 0; split; [done|lia]|].
  destruct p as [|p]; simpl; [by intros [= ->]|].
  intros (i & -> & Hi)%IH. exists (S i). split; [done|lia].
Qed.

Lemma last_index_ge c s p :
  s !! p = Some c -> exists j, last_index c s = Some j /\ p <= j.
Proof.
  revert p. induction s as [|c' s IH]; intros p; [done|]. simpl.
  destruct p as [|p]; simpl.
  - intros [= ->]. destruct (last_index c s) as [j|].
    + exists (S j). split; [done|lia].
    + rewrite decide_True by done. by exists 0.
  - intros (j & -> & Hj)%IH. exists (S j). split; [done|lia].
Qed.

(** The span decomposes the text: no opening brace before it, no closing
    brace after it, a brace at both of its ends. *)
Lemma brace_span_Some_inv (text span : string) :
  brace_span text = Some span ->
  exists pre post,
    list_ascii_of_string text = pre ++ list_ascii_of_string span ++ post /\
    ("{"%char ∉ pre) /\ ("}"%char ∉ post) /\
    head (list_ascii_of_string span) = Some "{"%char /\
    last (list_ascii_of_string span) = Some "}"%char.
Proof.
  unfold brace_span. set (s := list_ascii_of_string text).
  destruct (first_index "{" s) as [i|] eqn:Hi; [|done]. simpl.
  destruct (last_index "}" s) as [j|] eqn:Hj; [|done]. simpl.
  case_decide as Hij; [|done]. intros [= <-].
  rewrite list_ascii_of_string_of_list_ascii.
  pose proof (last_index_lt _ _ _ Hj) as Hlen.
  exists (take i s), (drop (S j) s). split_and!.
  - rewrite <- (take_drop i s) at 1. f_equal.
    rewrite <- (take_drop (j + 1 - i) (drop i s)) at 1. f_equal.
    rewrite drop_drop. f_equal. lia.
  - by apply first_index_take.
  - by apply last_index_drop_after.
  - apply first_index_lookup in Hi. rewrite head_lookup, lookup_take_lt by lia.
    by rewrite lookup_drop, Nat.add_0_r.
  - apply last_index_lookup in Hj. rewrite last_lookup.
    rewrite length_take, length_drop.
    replace (pred ((j + 1 - i) `min` (length s - i))) with (j - i) by lia.
    rewrite lookup_take_lt by lia. rewrite lookup_drop.
    by replace (i + (j - i)) with j by lia.
Qed.

Lemma head_last_inv (s : list ascii) (a b : ascii) :
  a <> b -> head s = Some a -> last s = Some b ->
  exists mid, s = a :: mid ++ [b].
Proof.
  intros Hab Hhead Hlast. destruct (last_snoc_inv _ _ Hlast) as [l ->].
  destruct l as [|c l]; simpl in Hhead; [by injection Hhead as <-|].
  injection Hhead as ->. by exists l.
Qed.

Lemma braces_located (p mid q : list ascii) :
  "{"%char ∉ p -> "}"%char ∉ q ->
  first_index "{" (p ++ "{"%char :: mid ++ "}"%char :: q) = Some (length p) /\
  last_index "}" (p ++ "{"%char :: mid ++ "}"%char :: q)
    = Some (length p + S (length mid)) /\
  take (S (S (length mid))) (drop (length p) (p ++ "{"%char :: mid ++ "}"%char :: q))
    = "{"%char :: mid ++ ["}"%char].
Proof.
  intros Hp Hq. split_and!.
  - by apply first_index_app.
  - replace (p ++ "{"%char :: mid ++ "}"%char :: q)
      with ((p ++ "{"%char :: mid) ++ "}"%char :: q)
      by (by rewrite <- app_assoc).
    rewrite last_index_app by done. rewrite length_app. simpl. done.
  - rewrite drop_app_length. simpl. f_equal.
    replace (mid ++ "}"%char :: q) with ((mid ++ ["}"%char]) ++ q)
      by (by rewrite <- app_assoc).
    apply take_app_length'. rewrite length_app. simpl. lia.
Qed.

Lemma brace_span_commentary (pre obj post : string) :
  "{"%char ∉ list_ascii_of_string pre ->
  "}"%char ∉ list_ascii_of_string post ->
  head (list_ascii_of_string obj) = Some "{"%char ->
  last (list_ascii_of_string obj) = Some "}"%char ->
  brace_span (pre +:+ obj +:+ post) = Some obj.
Proof.
  intros Hpre Hpost Hhead Hlast. unfold brace_span.
  rewrite !list_ascii_of_string_app.
  destruct (head_last_inv _ "{"%char "}"%char ltac:(done) Hhead Hlast) as [mid Hobj].
  rewrite Hobj.
  replace (list_ascii_of_string pre ++ ("{"%char :: mid ++ ["}"%char])
             ++ list_ascii_of_string post)
    with (list_ascii_of_string pre ++ "{"%char :: mid
            ++ "}"%char :: list_ascii_of_string post)
    by (simpl; by rewrite <- app_assoc).
  destruct (braces_located _ mid _ Hpre Hpost) as (-> & -> & Htake). simpl.
  rewrite decide_True by lia.
  replace (length (list_ascii_of_string pre) + S (length mid) + 1
           - length (list_ascii_of_string pre)) with (S (S (length mid))) by lia.
  rewrite Htake, <- Hobj. by rewrite string_of_list_ascii_of_string.
Qed.

(** X1: commentary around the object is ignored.  A text made of a prefix
    without opening brace, a brace-delimited object and a suffix without
    closing brace is extracted exactly as the object alone is. *)
Theorem extract_json_ignores_commentary (pre obj post : string) :
  "{"%char ∉ list_ascii_of_string pre ->
  "}"%char ∉ list_ascii_of_string post ->
  head (list_ascii_of_string obj) = Some "{"%char ->
  last (list_ascii_of_string obj) = Some "}"%char ->
  extract_json json_loads (pre +:+ obj +:+ post) = extract_json json_loads obj.
Proof.
  intros Hpre Hpost Hhead Hlast.
  rewrite !extract_json_spec.
  rewrite brace_span_commentary by done.
  by rewrite brace_span_whole.
Qed.

(** X2: the shape of a match.  Whatever the pattern matches is a piece of
    the text that opens with a brace and closes with one, with no opening
    brace anywhere before it and no closing brace anywhere after it; the
    first group is the whole match. *)
Theorem search_pattern_match_shape (text : string) (m : Re.match_object) :
  Re.search pattern text = Some m ->
  exists pre post,
    list_ascii_of_string text = pre ++ Re.whole m ++ post /\
    ("{"%char ∉ pre) /\ ("}"%char ∉ post) /\
    head (Re.whole m) = Some "{"%char /\
    last (Re.whole m) = Some "}"%char /\
    Re.group m 1 = Some (string_of_list_ascii (Re.whole m)).
Proof.
  intros Hm. destruct (search_pattern text) as (Hspan & _ & _).
  rewrite Hm in Hspan. simpl in Hspan.
  assert (Re.group m 1 = Some (string_of_list_ascii (Re.whole m))) as Hgroup.
  { unfold Re.search in Hm. rewrite search_from_pattern in Hm.
    destruct (first_index _ _) as [i|]; [|done]. simpl in Hm.
    destruct (last_index _ _) as [j|]; [|done]. simpl in Hm.
    injection Hm as <-. unfold Re.group. simpl. by rewrite lookup_singleton_eq. }
  rewrite Hgroup in Hspan. symmetry in Hspan.
  apply brace_span_Some_inv in Hspan as (pre & post & Htext & Hpre & Hpost & Hh & Hl).
  rewrite list_ascii_of_string_of_list_ascii in Htext, Hh, Hl.
  by exists pre, post.
Qed.

(** X3: extraction is idempotent on spans.  Extracting again from the span
    that the pattern found gives the same outcome as extracting from the
    whole text. *)
Theorem extract_json_span_idempotent (text span : string) (m : Re.match_object) :
  Re.search pattern text = Some m ->
  Re.group m 1 = Some span ->
  extract_json json_loads span = extract_json json_loads text.
Proof.
  intros Hm Hgroup. destruct (search_pattern text) as (Hspan & _ & _).
  rewrite Hm in Hspan. simpl in Hspan. rewrite Hgroup in Hspan. symmetry in Hspan.
  rewrite !extract_json_spec, Hspan.
  apply brace_span_Some_inv in Hspan as (_ & _ & _ & _ & _ & Hh & Hl).
  by rewrite brace_span_whole.
Qed.

Lemma brace_span_None_iff (text : string) :
  brace_span text = None <->
  ~ exists pre mid post,
      list_ascii_of_string text = pre ++ "{"%char :: mid ++ "}"%char :: post.
Proof.
  split.
  - intros Hnone (pre & mid & post & Htext). unfold brace_span in Hnone.
    rewrite Htext in Hnone.
    destruct (first_index_le "{"%char (pre ++ "{"%char :: mid ++ "}"%char :: post)
                (length pre)) as (i & Hi & Hile).
    { by rewrite lookup_app_r, Nat.sub_diag by lia. }
    destruct (last_index_ge "}"%char (pre ++ "{"%char :: mid ++ "}"%char :: post)
                (length pre + S (length mid))) as (j & Hj & Hjge).
    { rewrite lookup_app_r by lia.
      replace (length pre + S (length mid) - length pre) with (S (length mid)) by lia.
      simpl. by rewrite lookup_app_r, Nat.sub_diag by lia. }
    rewrite Hi, Hj in Hnone. simpl in Hnone. by rewrite decide_True in Hnone by lia.
  - intros Hno. destruct (brace_span text) as [span|] eqn:Hspan; [|done].
    exfalso. apply Hno.
    apply brace_span_Some_inv in Hspan as (pre & post & Htext & _ & _ & Hh & Hl).
    destruct (head_last_inv _ "{"%char "}"%char ltac:(done) Hh Hl) as [mid Hmid].
    exists pre, mid, post. rewrite Htext, Hmid. simpl. by rewrite <- app_assoc.
Qed.

(** X4: when no object is found.  Extraction raises its no-object error
    exactly for the texts in which no opening brace is followed, anywhere
    later, by a closing brace. *)
Theorem no_json_object_found_iff (text : string) :
  extract_json json_loads text
    = Raise (ValueError "No JSON object found in the text.") <->
  ~ exists pre mid post,
      list_ascii_of_string text = pre ++ "{"%char :: mid ++ "}"%char :: post.
Proof.
  rewrite <- brace_span_None_iff, extract_json_spec.
  destruct (brace_span text) as [span|]; [|done].
  by destruct (json_loads span).
Qed.

End ExtractionMore.

(** ** More on the unit of work *)

Section RequesterMore.
Variable json_loads : string -> string + json.
Variable order : set_enumeration.

(** X5: the four outcomes of a unit of work.  It raises what the search
    raises; else it raises what the generator raises; else it returns the
    value parsed from the brace-delimited span of the stripped text,
    whatever that value holds; else (no span, or a span that does not
    parse) it returns the fallback record. *)
Theorem process_field_outcomes (es : Elasticsearch) (index : string)
    (fd : field_detail) (llm : WatsonxWrapper) (threshold : Z) :
  match search es index (query (field_name fd) (data_type fd) threshold) with
  | Raise e => process_field json_loads order es index fd llm threshold = Raise e
  | Ok response =>
      let samples :=
        slice_to
          (list_of_set order ((key <$> agg_frequent_terms response)
                          ++ (key <$> agg_rare_terms response)
                          ++ (key <$> agg_significant_terms response)))
          threshold in
      match generate_text llm
              (generate_prompt index (field_name fd) (data_type fd) samples) with
      | Raise e => process_field json_loads order es index fd llm threshold = Raise e
      | Ok raw =>
          process_field json_loads order es index fd llm threshold =
          Ok match brace_span (strip raw) ≫= (fun span =>
                     match json_loads span with
                     | inr value => Some value
                     | inl _ => None
                     end) with
             | Some value => value
             | None =>
                 fallback index (field_name fd) (data_type fd) (strip raw) samples
             end
      end
  end.
Proof.
  unfold process_field, get_diverse_terms.
  destruct (search es index _) as [response|e]; [|done]. simpl.
  unfold combined_samples. simpl.
  destruct (generate_text llm _) as [raw|e]; [|done]. simpl.
  rewrite extract_json_spec.
  destruct (brace_span (strip raw)) as [span|]; [|done]. simpl.
  by destruct (json_loads span).
Qed.

(** X6: a unit of work raises nothing of its own.  Every exception that
    leaves [process_field] was raised by the search request or by the
    generation request; the errors of extraction never leave it. *)
Theorem process_field_raises_service_errors_only (es : Elasticsearch)
    (index : string) (fd : field_detail) (llm : WatsonxWrapper) (threshold : Z)
    (e : exn) :
  process_field json_loads order es index fd llm threshold = Raise e ->
  search es index (query (field_name fd) (data_type fd) threshold) = Raise e \/
  exists prompt, generate_text llm prompt = Raise e.
Proof.
  unfold process_field, get_diverse_terms.
  destruct (search es index _) as [response|e']; simpl; [|intros [= <-]; by left].
  destruct (generate_text llm _) as [raw|e'] eqn:Hraw; simpl.
  - rewrite extract_json_spec.
    destruct (brace_span (strip raw)) as [span|]; [|done].
    by destruct (json_loads span).
  - intros [= <-]. right. by eexists.
Qed.

Lemma length_enumerate (xs : list term) :
  length (enumerate order xs) = size (list_to_set xs : gset term).
Proof.
  rewrite <- (size_list_to_set (C:=gset term) (enumerate order xs))
    by apply enumerate_NoDup.
  f_equal. apply set_eq. intros x.
  rewrite !elem_of_list_to_set. apply enumerate_elem.
Qed.

(** X7: the size of the sample list.  With [d] distinct values among the
    three term lists, the list has [min threshold d] entries for a
    threshold that is not negative, and [d - |threshold|] entries (none
    when that is negative) for a negative one, which cuts from the end. *)
Theorem combined_samples_length (terms : diverse_terms) (threshold : Z) :
  let d :=
    size (list_to_set (frequent_terms terms ++ rare_terms terms
                         ++ significant_terms terms) : gset term) in
  length (combined_samples order terms threshold) =
  if decide (0 <= threshold)%Z then Z.to_nat threshold `min` d
  else d - Z.to_nat (- threshold).
Proof.
  unfold combined_samples, slice_to, list_of_set. simpl.
  case_decide; rewrite length_take, length_enumerate; lia.
Qed.

(** X8: nothing is lost below the threshold.  When the three term lists
    hold at most [threshold] distinct values, each of their values is in
    the sample list. *)
Theorem combined_samples_complete (terms : diverse_terms) (threshold : Z) (x : term) :
  (Z.of_nat (size (list_to_set (frequent_terms terms ++ rare_terms terms
                                  ++ significant_terms terms) : gset term))
     <= threshold)%Z ->
  x ∈ frequent_terms terms ++ rare_terms terms ++ significant_terms terms ->
  x ∈ combined_samples order terms threshold.
Proof.
  intros Hsize Hx. unfold combined_samples, slice_to, list_of_set.
  rewrite decide_True by lia.
  rewrite take_ge by (rewrite length_enumerate; lia).
  by apply enumerate_elem.
Qed.

End RequesterMore.

(** ** More on the worker pool *)

Section PoolMore.
Context {T A : Type}.
Variable max_workers : nat.
Variable work : T -> result A.

Lemma projections_cons (ev : Pool.event T) (trace : list (Pool.event T)) :
  submitted (ev :: trace) = submitted [ev] ++ submitted trace /\
  started (ev :: trace) = started [ev] ++ started trace /\
  completed (ev :: trace) = completed [ev] ++ completed trace /\
  handed_over (ev :: trace) = handed_over [ev] ++ handed_over trace.
Proof. by destruct ev. Qed.

(** What one action changes. *)
Lemma apply_delta (st st' : Pool.state T) (a : Pool.action) (ev : Pool.event T) :
  Pool.apply max_workers work st a = Some (st', ev) ->
  Pool.unsubmitted st = submitted [ev] ++ Pool.unsubmitted st' /\
  Pool.queued st ++ submitted [ev] ≡ₚ started [ev] ++ Pool.queued st' /\
  Pool.running st ++ started [ev] ≡ₚ completed [ev] ++ Pool.running st' /\
  Pool.finished st ++ completed [ev] ≡ₚ handed_over [ev] ++ Pool.finished st' /\
  Pool.yielded st' = Pool.yielded st ++ handed_over [ev] /\
  (length (Pool.running st) <= max_workers ->
   length (Pool.running st') <= max_workers) /\
  (loop_sound work st -> loop_sound work st') /\
  (handed_over [ev] <> [] -> Pool.unsubmitted st = []).
Proof.
  unfold loop_sound.
  destruct st as [u q r f y e], a as [| |k|k]; simpl.
  - destruct u as [|t u]; intros [= <- <-]; simpl.
    split_and!; rewrite ?app_nil_r; done.
  - destruct (q !! k) as [t|] eqn:Hk; [|done].
    case_decide; intros [= <- <-]; simpl.
    apply delete_Permutation in Hk.
    split_and!; rewrite ?app_nil_r; try done.
    intros _. rewrite length_app. simpl. lia.
  - destruct (r !! k) as [t|] eqn:Hk; intros [= <- <-]; simpl.
    apply delete_Permutation in Hk.
    split_and!; rewrite ?app_nil_r; try done.
    rewrite (Permutation_length Hk). simpl. lia.
  - destruct u as [|? ?]; [|done]. destruct e as [e|]; [done|].
    destruct (f !! k) as [t|] eqn:Hk; intros [= <- <-]; simpl.
    apply delete_Permutation in Hk.
    split_and!; rewrite ?app_nil_r; try done.
    intros Hy. destruct (Pool.failure work t) as [e|] eqn:Ht.
    + exists y, t. split_and!; try done.
      unfold Pool.failure in Ht. destruct (work t); congruence.
    + apply Forall_app. by split; [|apply Forall_singleton].
Qed.

(** What a sequence of actions changes: items are submitted in order,
    start, finish and are handed over in any order, and the loop stops at
    the first failure. *)
Lemma steps_delta (st st' : Pool.state T) (trace : list (Pool.event T)) :
  pool_steps max_workers work st trace st' ->
  Pool.unsubmitted st = submitted trace ++ Pool.unsubmitted st' /\
  Pool.queued st ++ submitted trace ≡ₚ started trace ++ Pool.queued st' /\
  Pool.running st ++ started trace ≡ₚ completed trace ++ Pool.running st' /\
  Pool.finished st ++ completed trace ≡ₚ handed_over trace ++ Pool.finished st' /\
  Pool.yielded st' = Pool.yielded st ++ handed_over trace /\
  (length (Pool.running st) <= max_workers ->
   length (Pool.running st') <= max_workers) /\
  (loop_sound work st -> loop_sound work st').
Proof.
  induction 1 as [st|st a st1 ev trace st' Hev _ IH].
  { split_and!; try done; simpl; by rewrite ?app_nil_r. }
  apply apply_delta in Hev as (Hu & Hq & Hr & Hf & Hy & Hw & Hs & _).
  destruct IH as (Hu' & Hq' & Hr' & Hf' & Hy' & Hw' & Hs').
  destruct (projections_cons ev trace) as (-> & -> & -> & ->).
  split_and!.
  - by rewrite Hu, Hu', app_assoc.
  - by rewrite app_assoc, Hq, <- !app_assoc, Hq'.
  - by rewrite app_assoc, Hr, <- !app_assoc, Hr'.
  - by rewrite app_assoc, Hf, <- !app_assoc, Hf'.
  - by rewrite Hy', Hy, app_assoc.
  - by auto.
  - by auto.
Qed.

Lemma steps_app_inv (st final : Pool.state T) (pre post : list (Pool.event T)) :
  pool_steps max_workers work st (pre ++ post) final ->
  exists mid,
    pool_steps max_workers work st pre mid /\
    pool_steps max_workers work mid post final.
Proof.
  revert st. induction pre as [|ev pre IH]; intros st; simpl.
  - intros Hsteps. exists st. split; [constructor|done].
  - inversion 1 as [|? a st1 ? ? ? Hev Hrest]; subst.
    destruct (IH _ Hrest) as (mid & Hpre & Hpost).
    exists mid. split; [|done]. by econstructor.
Qed.

Lemma run_steps (fuel : nat) (st final : Pool.state T) (sched : list nat)
    (trace : list (Pool.event T)) :
  Pool.run max_workers work fuel st sched = (final, trace) ->
  pool_steps max_workers work st trace final.
Proof.
  revert st final sched trace.
  induction fuel as [|fuel IH]; intros st final sched trace; simpl.
  { intros [= <- <-]. constructor. }
  destruct (Pool.enabled max_workers st !! _) as [a|] eqn:Ha; simpl;
    [|intros [= <- <-]; constructor].
  destruct (Pool.apply max_workers work st a) as [[st' ev]|] eqn:Hev;
    [|intros [= <- <-]; constructor].
  destruct (Pool.run max_workers work fuel st' (tl sched)) as [final' trace'] eqn:Hrun.
  intros [= <- <-]. econstructor; [done|]. by apply IH in Hrun.
Qed.

Lemma for_each_first_failure (ys : list T) (t : T) (e : exn) :
  Forall (fun t => Pool.failure work t = None) ys ->
  work t = Raise e ->
  for_each work (ys ++ [t]) = Raise e.
Proof.
  intros Hys Ht. induction Hys as [|y ys Hy _ IH]; simpl.
  - by rewrite Ht.
  - unfold Pool.failure in Hy. destruct (work y); [|done]. simpl. by rewrite IH.
Qed.

(** A pool run as a sequence of actions from the initial state to a
    drained one. *)
Lemma execute_steps (items : list T) (sched : list nat) :
  0 < max_workers ->
  exists final,
    pool_steps max_workers work (Pool.init items)
      (Pool.execute max_workers work items sched).1 final /\
    (Pool.execute max_workers work items sched).2 = Pool.outcome work final /\
    Pool.drained final.
Proof.
  intros Hw. unfold Pool.execute.
  destruct (Pool.run _ _ _ _ _) as [final trace] eqn:Hrun. simpl.
  exists final. split_and!; [by eapply run_steps|done|].
  apply run_inv in Hrun as (_ & _ & _ & _ & _ & Hdrained).
  apply Hdrained; [done|]. unfold measure. simpl. lia.
Qed.

End PoolMore.

Section CoordinatorMore.
Variable json_loads : string -> string + json.
Variable order : set_enumeration.

Lemma process_index_steps (es : Elasticsearch) (index : string)
    (llm : WatsonxWrapper) (threshold : Z) (sched : list nat)
    (fields : list field_detail) :
  get_fields es index = Ok fields ->
  let work fi := process_field json_loads order es index fi llm threshold in
  exists final,
    pool_steps 10 work (Pool.init fields)
      (process_index json_loads order es index llm threshold sched).1 final /\
    (process_index json_loads order es index llm threshold sched).2
      = Pool.outcome work final /\
    Pool.drained final.
Proof.
  intros Hfields work. unfold process_index.
  rewrite (process_index_pool_execute json_loads order 10 _ _ _ _ _ fields) by (done || lia).
  apply execute_steps. lia.
Qed.

(** X9: submission follows the field order and every unit runs once.
    In every run of [process_index], whether it returns or raises, the
    units are submitted in the order of the field list, and every
    submitted unit begins once and finishes once; the order in which
    they begin and finish is left to the schedule. *)
Theorem units_submitted_in_field_order_and_run_once (es : Elasticsearch)
    (index : string) (llm : WatsonxWrapper) (threshold : Z) (sched : list nat)
    (fields : list field_detail) :
  get_fields es index = Ok fields ->
  submitted (process_index json_loads order es index llm threshold sched).1 = fields /\
  started (process_index json_loads order es index llm threshold sched).1 ≡ₚ fields /\
  completed (process_index json_loads order es index llm threshold sched).1 ≡ₚ fields.
Proof.
  intros Hfields.
  destruct (process_index_steps es index llm threshold sched fields Hfields)
    as (final & Hsteps & _ & Hu & Hq & Hr & _).
  apply steps_delta in Hsteps as (Hsub & Hstart & Hrun & _).
  simpl in Hsub, Hstart, Hrun.
  rewrite Hu, app_nil_r in Hsub. rewrite Hq, app_nil_r in Hstart.
  rewrite Hr, app_nil_r in Hrun.
  split_and!; [done|by rewrite <- Hstart, <- Hsub|by rewrite <- Hrun, <- Hstart, <- Hsub].
Qed.

(** X10: never more than ten units at once.  At every point of a run of
    [process_index], the units started exceed the units finished by at
    most ten. *)
Theorem at_most_ten_units_run_at_once (es : Elasticsearch) (index : string)
    (llm : WatsonxWrapper) (threshold : Z) (sched : list nat)
    (fields : list field_detail) (pre : list (Pool.event field_detail)) :
  get_fields es index = Ok fields ->
  pre `prefix_of` (process_index json_loads order es index llm threshold sched).1 ->
  length (started pre) <= length (completed pre) + 10.
Proof.
  intros Hfields [post Hpre].
  destruct (process_index_steps es index llm threshold sched fields Hfields)
    as (final & Hsteps & _).
  rewrite Hpre in Hsteps. apply steps_app_inv in Hsteps as (mid & Hsteps & _).
  apply steps_delta in Hsteps as (_ & _ & Hrun & _ & _ & Hw & _). simpl in Hrun, Hw.
  apply Permutation_length in Hrun. rewrite length_app in Hrun. lia.
Qed.

(** X11: every unit goes through its stages in order.  At every point of a
    run of [process_index], the units started are among the units
    submitted, the units finished are among the units started, and the
    futures handed over are among the units finished. *)
Theorem units_progress_in_stage_order (es : Elasticsearch) (index : string)
    (llm : WatsonxWrapper) (threshold : Z) (sched : list nat)
    (fields : list field_detail) (pre : list (Pool.event field_detail)) :
  get_fields es index = Ok fields ->
  pre `prefix_of` (process_index json_loads order es index llm threshold sched).1 ->
  started pre ⊆+ submitted pre /\
  completed pre ⊆+ started pre /\
  handed_over pre ⊆+ completed pre.
Proof.
  intros Hfields [post Hpre].
  destruct (process_index_steps es index llm threshold sched fields Hfields)
    as (final & Hsteps & _).
  rewrite Hpre in Hsteps. apply steps_app_inv in Hsteps as (mid & Hsteps & _).
  apply steps_delta in Hsteps as (_ & Hq & Hrun & Hfin & _). simpl in Hq, Hrun, Hfin.
  split_and!.
  - rewrite Hq. by apply submseteq_inserts_r.
  - rewrite Hrun. by apply submseteq_inserts_r.
  - rewrite Hfin. by apply submseteq_inserts_r.
Qed.

(** X12: results are read only after every submission.  In a run of
    [process_index], when [as_completed] hands over its first future (and
    any later one), all the fields have been submitted. *)
Theorem results_read_after_all_submitted (es : Elasticsearch) (index : string)
    (llm : WatsonxWrapper) (threshold : Z) (sched : list nat)
    (fields : list field_detail) (pre post : list (Pool.event field_detail))
    (fd : field_detail) :
  get_fields es index = Ok fields ->
  (process_index json_loads order es index llm threshold sched).1
    = pre ++ Pool.Yielded fd :: post ->
  submitted pre = fields.
Proof.
  intros Hfields Htrace.
  destruct (process_index_steps es index llm threshold sched fields Hfields)
    as (final & Hsteps & _).
  rewrite Htrace in Hsteps. apply steps_app_inv in Hsteps as (mid & Hpre & Hpost).
  inversion Hpost as [|? a st1 ? ? ? Hev _]; subst.
  apply apply_delta in Hev as (_ & _ & _ & _ & _ & _ & _ & Hu).
  apply steps_delta in Hpre as (Hsub & _). simpl in Hsub.
  rewrite Hu, app_nil_r in Hsub; done.
Qed.

(** X13: the result is the loop over the futures in hand-over order.
    What [process_index] returns or raises is what appending the results
    of the futures, in the order in which [as_completed] handed them
    over, gives.  When it returns, every field's future was handed over
    once; when it raises, the last future handed over is the first one
    that failed, and its exception is the one raised. *)
Theorem result_follows_hand_over_order (es : Elasticsearch) (index : string)
    (llm : WatsonxWrapper) (threshold : Z) (sched : list nat)
    (fields : list field_detail) :
  get_fields es index = Ok fields ->
  let work fi := process_field json_loads order es index fi llm threshold in
  let run := process_index json_loads order es index llm threshold sched in
  run.2 = for_each work (handed_over run.1) /\
  match run.2 with
  | Ok _ => handed_over run.1 ≡ₚ fields
  | Raise e =>
      exists taken failed,
        handed_over run.1 = taken ++ [failed] /\
        Forall (fun fi => exists record, work fi = Ok record) taken /\
        work failed = Raise e
  end.
Proof.
  intros Hfields work run.
  destruct (process_index_steps es index llm threshold sched fields Hfields)
    as (final & Hsteps & Hout & Hu & Hq & Hr & Hdone).
  fold work run in Hsteps, Hout.
  apply steps_delta in Hsteps
    as (Hsub & Hstart & Hrun & Hfin & Hy & _ & Hsound).
  simpl in Hsub, Hstart, Hrun, Hfin, Hy, Hsound.
  specialize (Hsound (Forall_nil_2 _)).
  rewrite Hu, app_nil_r in Hsub. rewrite Hq, app_nil_r in Hstart.
  rewrite Hr, app_nil_r in Hrun.
  rewrite Hout. unfold Pool.outcome, loop_sound in *. rewrite Hy in *.
  destruct (Pool.raised final) as [e|].
  - destruct Hsound as (ys & t & Hys & Hok & Ht).
    split; [by rewrite Hys, (for_each_first_failure work ys t e)|].
    exists ys, t. split_and!; try done.
    eapply Forall_impl; [exact Hok|]. intros fi Hfi. unfold Pool.failure in Hfi.
    destruct (work fi) as [record|]; [by eexists|done].
  - split; [done|]. rewrite (for_each_value work _ Hsound).
    destruct Hdone as [Hdone|]; [|done]. rewrite Hdone, app_nil_r in Hfin.
    by rewrite <- Hfin, <- Hrun, <- Hstart, Hsub.
Qed.

End CoordinatorMore.

(** ** More on the run over all indices *)

Section DictionaryMore.
Variable json_loads : string -> string + json.
Variable order : set_enumeration.

Lemma for_each_failure {T A} (work : T -> result A) (items : list T) (t : T) (e : exn) :
  t ∈ items -> work t = Raise e -> exists e', for_each work items = Raise e'.
Proof.
  intros Ht He. induction items as [|x items IH]; [by apply elem_of_nil in Ht|].
  simpl. destruct (work x) as [v|e'] eqn:Hx; [|by eexists]. simpl.
  apply elem_of_cons in Ht as [->|Ht]; [congruence|].
  destruct (IH Ht) as [e' ->]. by eexists.
Qed.

Lemma index_loop_all_ok (es : Elasticsearch) (llm : WatsonxWrapper) (threshold : Z)
    (indices : list string) (recordss : list (list json)) :
  Forall2 (fun index records =>
             exists fields,
               get_fields es index = Ok fields /\
               for_each (fun fi => process_field json_loads order es index fi llm threshold)
                 fields = Ok records)
    indices recordss ->
  forall scheds acc,
    exists parts,
      (index_loop json_loads order es llm threshold indices scheds acc).2
        = Ok (acc ++ concat parts) /\
      Forall2 (≡ₚ) parts recordss.
Proof.
  induction 1 as [|index records indices recordss (fields & Hfields & Hseq) _ IH];
    intros scheds acc; simpl.
  { exists []. split; [by rewrite app_nil_r|constructor]. }
  pose proof (process_index_pool_result json_loads order 10 es index llm threshold
                (hd [] scheds) fields ltac:(lia) Hfields) as Hres.
  simpl in Hres. rewrite Hseq in Hres. destruct Hres as (metadata & Hrun & Hperm).
  fold (process_index json_loads order) in Hrun.
  destruct (process_index _ _ _ _ _ _ _) as [tr r]. simpl in Hrun. subst r.
  destruct (IH (tl scheds) (acc ++ metadata)) as (parts & Hloop & Hparts).
  destruct (index_loop _ _ _ _ _ _ _ _) as [tr' r']. simpl in Hloop. subst r'.
  exists (metadata :: parts). simpl. split; [by rewrite app_assoc|by constructor].
Qed.

(** X14: one entry per index and field.  When the indices are listed and,
    in each of them, every field is processed without failure, the full
    run returns, for every choice of schedules, a dictionary made of one
    part per index in index order, each part a rearrangement of the
    records of that index's fields. *)
Theorem dictionary_one_record_per_index_field (es : Elasticsearch)
    (llm : WatsonxWrapper) (threshold : Z) (scheds : list (list nat))
    (indices : list string) (recordss : list (list json)) :
  get_indices es = Ok indices ->
  Forall2 (fun index records =>
             exists fields,
               get_fields es index = Ok fields /\
               for_each (fun fi => process_field json_loads order es index fi llm threshold)
                 fields = Ok records)
    indices recordss ->
  exists parts,
    (generate_metadata_dictionary json_loads order es llm threshold scheds).2
      = Ok (concat parts) /\
    Forall2 (≡ₚ) parts recordss /\
    length (concat parts) = length (concat recordss).
Proof.
  intros Hindices Hall. unfold generate_metadata_dictionary. rewrite Hindices.
  destruct (index_loop_all_ok es llm threshold indices recordss Hall scheds [])
    as (parts & Hloop & Hparts).
  exists parts. split_and!; [done..|].
  clear Hloop Hall. induction Hparts as [|p r parts recordss Hp _ IH]; [done|].
  simpl. by rewrite !length_app, IH, Hp.
Qed.

Lemma index_loop_failure (es : Elasticsearch) (llm : WatsonxWrapper) (threshold : Z)
    (indices : list string) (index : string) (fields : list field_detail)
    (fd : field_detail) (e : exn) :
  index ∈ indices ->
  get_fields es index = Ok fields ->
  fd ∈ fields ->
  process_field json_loads order es index fd llm threshold = Raise e ->
  forall scheds acc,
    exists e', (index_loop json_loads order es llm threshold indices scheds acc).2 = Raise e'.
Proof.
  intros Hin Hfields Hfd He.
  induction indices as [|index' indices IH]; intros scheds acc;
    [by apply elem_of_nil in Hin|]. simpl.
  destruct (process_index _ _ _ index' _ _ _) as [tr r] eqn:Hrun.
  destruct r as [metadata|e']; [|by eexists].
  apply elem_of_cons in Hin as [<-|Hin].
  - exfalso.
    pose proof (process_index_pool_result json_loads order 10 es index llm threshold
                  (hd [] scheds) fields ltac:(lia) Hfields) as Hres.
    simpl in Hres.
    destruct (for_each_failure
                (fun fi => process_field json_loads order es index fi llm threshold)
                fields fd e Hfd He) as [e' Hseq].
    rewrite Hseq in Hres. destruct Hres as (? & ? & _ & _ & Hraise).
    fold (process_index json_loads order) in Hraise. rewrite Hrun in Hraise. done.
  - destruct (IH Hin (tl scheds) (acc ++ metadata)) as [e' Hloop].
    destruct (index_loop _ _ _ _ _ _ _ _) as [tr' r']. simpl in Hloop. by eexists.
Qed.

(** X15: one failing unit costs the whole dictionary.  When a unit of
    work of any field of any listed index raises, the full run raises
    for every choice of schedules and returns no dictionary, the records
    of the other indices included. *)
Theorem failing_unit_aborts_full_run (es : Elasticsearch) (llm : WatsonxWrapper)
    (threshold : Z) (scheds : list (list nat)) (indices : list string)
    (index : string) (fields : list field_detail) (fd : field_detail) (e : exn) :
  get_indices es = Ok indices ->
  index ∈ indices ->
  get_fields es index = Ok fields ->
  fd ∈ fields ->
  process_field json_loads order es index fd llm threshold = Raise e ->
  exists e',
    (generate_metadata_dictionary json_loads order es llm threshold scheds).2 = Raise e'.
Proof.
  intros Hindices Hin Hfields Hfd He.
  unfold generate_metadata_dictionary. rewrite Hindices.
  by eapply index_loop_failure.
Qed.

(** X16: an index without fields.  For an index whose mapping has no
    properties (none at all, or an empty object), [process_index] returns
    the empty list without submitting a unit, so neither the search nor
    the generator is asked anything. *)
Theorem index_without_fields_is_skipped (es : Elasticsearch) (index : string)
    (mapping : gmap string index_mapping) (entry : index_mapping)
    (llm : WatsonxWrapper) (threshold : Z) (sched : list nat) :
  indices_get_mapping es index = Ok mapping ->
  mapping !! index = Some entry ->
  default [] (properties (mappings entry)) = [] ->
  process_index json_loads order es index llm threshold sched = ([], Ok []).
Proof.
  intros Hmapping Hentry Hprops.
  unfold process_index, process_index_pool, get_fields.
  rewrite Hmapping. simpl. by rewrite Hentry, Hprops.
Qed.

(** X17: an answer without the index.  When the mapping request answers
    but its answer has no entry under the index name, [process_index]
    raises KeyError for that name and submits nothing; a full run whose
    first index is this one raises the same and returns no dictionary. *)
Theorem index_missing_from_mapping_raises (es : Elasticsearch) (index : string)
    (mapping : gmap string index_mapping) (llm : WatsonxWrapper) (threshold : Z)
    (scheds : list (list nat)) (sched : list nat) (rest : list string) :
  indices_get_mapping es index = Ok mapping ->
  mapping !! index = None ->
  get_indices es = Ok (index :: rest) ->
  process_index json_loads order es index llm threshold sched = ([], Raise (KeyError index)) /\
  generate_metadata_dictionary json_loads order es llm threshold scheds
    = ([], Raise (KeyError index)).
Proof.
  intros Hmapping Hentry Hindices.
  assert (forall sched, process_index json_loads order es index llm threshold sched
                        = ([], Raise (KeyError index))) as Hrun.
  { intros sched'. unfold process_index, process_index_pool, get_fields.
    rewrite Hmapping. simpl. by rewrite Hentry. }
  split; [done|]. unfold generate_metadata_dictionary. rewrite Hindices.
  simpl. by rewrite Hrun.
Qed.

End DictionaryMore.

(** ** Stripping and extraction *)

Section StripMore.
Variable json_loads : string -> string + json.

Lemma lstrip_spec (s : list ascii) :
  exists ws, s = ws ++ lstrip s /\ Forall (fun c => is_space c = true) ws.
Proof.
  induction s as [|c s (ws & Hs & Hws)]; simpl; [by exists []|].
  destruct (is_space c) eqn:Hc.
  - exists (c :: ws). split; [simpl; congruence|by constructor].
  - by exists [].
Qed.

(** [strip] removes whitespace from the two ends and nothing else. *)
Lemma strip_spec (text : string) :
  exists ws1 ws2,
    list_ascii_of_string text = ws1 ++ list_ascii_of_string (strip text) ++ ws2 /\
    Forall (fun c => is_space c = true) ws1 /\
    Forall (fun c => is_space c = true) ws2.
Proof.
  unfold strip. rewrite list_ascii_of_string_of_list_ascii.
  destruct (lstrip_spec (list_ascii_of_string text)) as (ws1 & Hs & Hws1).
  destruct (lstrip_spec (rev (lstrip (list_ascii_of_string text)))) as (ws2 & Hr & Hws2).
  exists ws1, (rev ws2). split_and!; [|done|by apply Forall_rev].
  rewrite Hs at 1. f_equal.
  rewrite <- (rev_involutive (lstrip (list_ascii_of_string text))) at 1.
  rewrite Hr at 1. by rewrite rev_app_distr.
Qed.

Lemma space_is_no_brace (ws : list ascii) (c : ascii) :
  is_space c = false ->
  Forall (fun c => is_space c = true) ws -> c ∉ ws.
Proof.
  intros Hc Hws Hin. rewrite Forall_forall in Hws.
  specialize (Hws c Hin). congruence.
Qed.

Lemma brace_span_is_Some_iff (text : string) :
  is_Some (brace_span text) <->
  exists a b,
    a < b /\
    list_ascii_of_string text !! a = Some "{"%char /\
    list_ascii_of_string text !! b = Some "}"%char.
Proof.
  unfold brace_span. set (s := list_ascii_of_string text). split.
  - destruct (first_index "{" s) as [i|] eqn:Hi; simpl; [|by intros [? [=]]].
    destruct (last_index "}" s) as [j|] eqn:Hj; simpl; [|by intros [? [=]]].
    case_decide; [|by intros [? [=]]]. intros _. exists i, j.
    split_and!; [done|by eapply first_index_lookup|by eapply last_index_lookup].
  - intros (a & b & Hab & Ha & Hb).
    destruct (first_index_le _ _ _ Ha) as (i & -> & Hi).
    destruct (last_index_ge _ _ _ Hb) as (j & -> & Hj). simpl.
    rewrite decide_True by lia. by eexists.
Qed.

Lemma brace_span_located (text : string) (p mid q : list ascii) :
  list_ascii_of_string text = p ++ "{"%char :: mid ++ "}"%char :: q ->
  "{"%char ∉ p -> "}"%char ∉ q ->
  brace_span text = Some (string_of_list_ascii ("{"%char :: mid ++ ["}"%char])).
Proof.
  intros Htext Hp Hq. unfold brace_span. rewrite Htext.
  destruct (braces_located p mid q Hp Hq) as (-> & -> & Htake). simpl.
  rewrite decide_True by lia.
  replace (length p + S (length mid) + 1 - length p) with (S (S (length mid))) by lia.
  by rewrite Htake.
Qed.

Lemma lookup_padded (ws1 s ws2 : list ascii) (c : ascii) (a : nat) :
  c ∉ ws1 -> c ∉ ws2 ->
  (ws1 ++ s ++ ws2) !! a = Some c ->
  length ws1 <= a /\ s !! (a - length ws1) = Some c.
Proof.
  intros H1 H2 Ha.
  apply lookup_app_Some in Ha as [Ha|[Hlen Ha]].
  { exfalso. apply H1. by eapply list_elem_of_lookup_2. }
  split; [done|].
  apply lookup_app_Some in Ha as [Ha|[_ Ha]]; [done|].
  exfalso. apply H2. by eapply list_elem_of_lookup_2.
Qed.

(** Whitespace around a text does not move its span. *)
Lemma brace_span_padding (text text' : string) (ws1 ws2 : list ascii) :
  list_ascii_of_string text' = ws1 ++ list_ascii_of_string text ++ ws2 ->
  Forall (fun c => is_space c = true) ws1 ->
  Forall (fun c => is_space c = true) ws2 ->
  brace_span text' = brace_span text.
Proof.
  intros Htext' Hws1 Hws2.
  pose proof (space_is_no_brace ws1 "{"%char eq_refl Hws1) as Ho1.
  pose proof (space_is_no_brace ws2 "{"%char eq_refl Hws2) as Ho2.
  pose proof (space_is_no_brace ws1 "}"%char eq_refl Hws1) as Hc1.
  pose proof (space_is_no_brace ws2 "}"%char eq_refl Hws2) as Hc2.
  destruct (brace_span text) as [span|] eqn:Hspan.
  - apply brace_span_Some_inv in Hspan as (pre & post & Htext & Hpre & Hpost & Hh & Hl).
    destruct (head_last_inv _ "{"%char "}"%char ltac:(done) Hh Hl) as [mid Hmid].
    rewrite (brace_span_located text' (ws1 ++ pre) mid (post ++ ws2)).
    + by rewrite <- Hmid, string_of_list_ascii_of_string.
    + rewrite Htext', Htext, Hmid. simpl. rewrite <- !app_assoc. simpl.
      by rewrite <- !app_assoc.
    + rewrite not_elem_of_app. by split.
    + rewrite not_elem_of_app. by split.
  - destruct (brace_span text') as [span'|] eqn:Hspan'; [|done]. exfalso.
    assert (is_Some (brace_span text)) as [? Hsome]; [|congruence].
    apply brace_span_is_Some_iff.
    destruct (proj1 (brace_span_is_Some_iff text') ltac:(by eexists))
      as (a & b & Hab & Ha & Hb).
    rewrite Htext' in Ha, Hb.
    apply lookup_padded in Ha as [Hla Ha]; [|done..].
    apply lookup_padded in Hb as [Hlb Hb]; [|done..].
    exists (a - length ws1), (b - length ws1). split_and!; [lia|done..].
Qed.

(** X18: stripping matters to the fallback only.  Extraction from the
    stripped generation text has the outcome of extraction from the raw
    text: the whitespace that [strip] removes lies outside every span. *)
Theorem strip_does_not_change_extraction (raw : string) :
  extract_json json_loads (strip raw) = extract_json json_loads raw.
Proof.
  destruct (strip_spec raw) as (ws1 & ws2 & Hraw & Hws1 & Hws2).
  rewrite !extract_json_spec.
  by rewrite (brace_span_padding (strip raw) raw ws1 ws2).
Qed.

End StripMore.

(** ** The further theorems at work *)

Lemma extract_json_ignores_commentary_witness :
  ("{"%char ∉ list_ascii_of_string "Here you go: ") /\
  ("}"%char ∉ list_ascii_of_string " Done.") /\
  head (list_ascii_of_string (JsonRef.dumps Demo.gender_record)) = Some "{"%char /\
  last (list_ascii_of_string (JsonRef.dumps Demo.gender_record)) = Some "}"%char /\
  extract_json JsonRef.loads
    ("Here you go: " +:+ JsonRef.dumps Demo.gender_record +:+ " Done.")
  = extract_json JsonRef.loads (JsonRef.dumps Demo.gender_record).
Proof.
  assert ("{"%char ∉ list_ascii_of_string "Here you go: ") as Hpre
    by (apply (bool_decide_unpack _); vm_compute; exact I).
  assert ("}"%char ∉ list_ascii_of_string " Done.") as Hpost
    by (apply (bool_decide_unpack _); vm_compute; exact I).
  split_and!; [exact Hpre|exact Hpost|vm_compute; reflexivity..|].
  apply (extract_json_ignores_commentary JsonRef.loads "Here you go: "
           (JsonRef.dumps Demo.gender_record) " Done.");
    [exact Hpre|exact Hpost|vm_compute; reflexivity..].
Defined.

Lemma search_pattern_match_shape_witness :
  Re.search pattern "a {} b {} c" = Some DemoEdge.two_objects_match /\
  exists pre post,
    list_ascii_of_string "a {} b {} c"
      = pre ++ Re.whole DemoEdge.two_objects_match ++ post /\
    ("{"%char ∉ pre) /\ ("}"%char ∉ post) /\
    head (Re.whole DemoEdge.two_objects_match) = Some "{"%char /\
    last (Re.whole DemoEdge.two_objects_match) = Some "}"%char /\
    Re.group DemoEdge.two_objects_match 1
      = Some (string_of_list_ascii (Re.whole DemoEdge.two_objects_match)).
Proof.
  split; [vm_compute; reflexivity|].
  apply (search_pattern_match_shape "a {} b {} c" DemoEdge.two_objects_match).
  vm_compute; reflexivity.
Defined.

Lemma extract_json_span_idempotent_witness :
  Re.search pattern "a {} b {} c" = Some DemoEdge.two_objects_match /\
  Re.group DemoEdge.two_objects_match 1 = Some "{} b {}" /\
  extract_json JsonRef.loads "{} b {}" = extract_json JsonRef.loads "a {} b {} c".
Proof.
  split_and!; [vm_compute; reflexivity..|].
  apply (extract_json_span_idempotent JsonRef.loads "a {} b {} c" "{} b {}"
           DemoEdge.two_objects_match);
    vm_compute; reflexivity.
Defined.

Lemma process_field_raises_service_errors_only_witness :
  process_field JsonRef.loads hash_order Demo.es "employee_data" Demo.Division Demo.llm_flaky 20
    = Raise (TransportError "Read timed out.") /\
  (search Demo.es "employee_data" (query "Division" "text" 20)
     = Raise (TransportError "Read timed out.") \/
   exists prompt,
     generate_text Demo.llm_flaky prompt = Raise (TransportError "Read timed out.")).
Proof.
  split; [vm_compute; reflexivity|].
  apply (process_field_raises_service_errors_only JsonRef.loads hash_order Demo.es
           "employee_data" Demo.Division Demo.llm_flaky 20
           (TransportError "Read timed out.")).
  vm_compute; reflexivity.
Defined.

Lemma combined_samples_complete_witness :
  (Z.of_nat (size (list_to_set (frequent_terms Demo.gender_terms
                                  ++ rare_terms Demo.gender_terms
                                  ++ significant_terms Demo.gender_terms) : gset term))
     <= 20)%Z /\
  TStr "Female" ∈ frequent_terms Demo.gender_terms ++ rare_terms Demo.gender_terms
                    ++ significant_terms Demo.gender_terms /\
  TStr "Female" ∈ combined_samples hash_order Demo.gender_terms 20.
Proof.
  assert (TStr "Female" ∈ frequent_terms Demo.gender_terms
            ++ rare_terms Demo.gender_terms ++ significant_terms Demo.gender_terms)
    as Hin by (apply list_elem_of_further, list_elem_of_here).
  split_and!; [by vm_compute|exact Hin|].
  apply (combined_samples_complete hash_order Demo.gender_terms 20 (TStr "Female"));
    [by vm_compute|exact Hin].
Defined.

Lemma units_submitted_in_field_order_and_run_once_witness :
  get_fields Demo.es "employee_data" = Ok [Demo.GenderCode; Demo.Division; Demo.Address] /\
  submitted (process_index JsonRef.loads hash_order Demo.es "employee_data" Demo.llm_flaky 20
               [0; 0; 0; 1; 0; 2; 1]).1
    = [Demo.GenderCode; Demo.Division; Demo.Address] /\
  started (process_index JsonRef.loads hash_order Demo.es "employee_data" Demo.llm_flaky 20
             [0; 0; 0; 1; 0; 2; 1]).1
    ≡ₚ [Demo.GenderCode; Demo.Division; Demo.Address] /\
  completed (process_index JsonRef.loads hash_order Demo.es "employee_data" Demo.llm_flaky 20
               [0; 0; 0; 1; 0; 2; 1]).1
    ≡ₚ [Demo.GenderCode; Demo.Division; Demo.Address].
Proof.
  split; [vm_compute; reflexivity|].
  apply (units_submitted_in_field_order_and_run_once JsonRef.loads hash_order Demo.es
           "employee_data" Demo.llm_flaky 20 [0; 0; 0; 1; 0; 2; 1]
           [Demo.GenderCode; Demo.Division; Demo.Address]).
  vm_compute; reflexivity.
Defined.

Lemma at_most_ten_units_run_at_once_witness :
  get_fields Demo.es "employee_data" = Ok [Demo.GenderCode; Demo.Division; Demo.Address] /\
  take 6 (process_index JsonRef.loads hash_order Demo.es "employee_data" Demo.llm 20 []).1
    `prefix_of` (process_index JsonRef.loads hash_order Demo.es "employee_data" Demo.llm 20 []).1 /\
  length (started (take 6 (process_index JsonRef.loads hash_order Demo.es "employee_data"
                             Demo.llm 20 []).1))
    <= length (completed (take 6 (process_index JsonRef.loads hash_order Demo.es "employee_data"
                                    Demo.llm 20 []).1)) + 10.
Proof.
  split_and!; [vm_compute; reflexivity|apply prefix_take|].
  apply (at_most_ten_units_run_at_once JsonRef.loads hash_order Demo.es "employee_data"
           Demo.llm 20 [] [Demo.GenderCode; Demo.Division; Demo.Address]);
    [vm_compute; reflexivity|apply prefix_take].
Defined.

Lemma units_progress_in_stage_order_witness :
  get_fields Demo.es "employee_data" = Ok [Demo.GenderCode; Demo.Division; Demo.Address] /\
  take 8 (process_index JsonRef.loads hash_order Demo.es "employee_data" Demo.llm 20
            [0; 0; 0; 1; 0; 2; 1]).1
    `prefix_of` (process_index JsonRef.loads hash_order Demo.es "employee_data" Demo.llm 20
                   [0; 0; 0; 1; 0; 2; 1]).1 /\
  started (take 8 (process_index JsonRef.loads hash_order Demo.es "employee_data" Demo.llm 20
                     [0; 0; 0; 1; 0; 2; 1]).1)
    ⊆+ submitted (take 8 (process_index JsonRef.loads hash_order Demo.es "employee_data"
                                     Demo.llm 20 [0; 0; 0; 1; 0; 2; 1]).1) /\
  completed (take 8 (process_index JsonRef.loads hash_order Demo.es "employee_data" Demo.llm 20
                       [0; 0; 0; 1; 0; 2; 1]).1)
    ⊆+ started (take 8 (process_index JsonRef.loads hash_order Demo.es "employee_data" Demo.llm 20
                          [0; 0; 0; 1; 0; 2; 1]).1) /\
  handed_over (take 8 (process_index JsonRef.loads hash_order Demo.es "employee_data" Demo.llm 20
                         [0; 0; 0; 1; 0; 2; 1]).1)
    ⊆+ completed (take 8 (process_index JsonRef.loads hash_order Demo.es "employee_data" Demo.llm 20
                            [0; 0; 0; 1; 0; 2; 1]).1).
Proof.
  split_and!; [vm_compute; reflexivity|apply prefix_take|..];
    apply (units_progress_in_stage_order JsonRef.loads hash_order Demo.es "employee_data"
             Demo.llm 20 [0; 0; 0; 1; 0; 2; 1]
             [Demo.GenderCode; Demo.Division; Demo.Address]);
    first [apply prefix_take|vm_compute; reflexivity].
Defined.

Lemma results_read_after_all_submitted_witness :
  get_fields Demo.es "employee_data" = Ok [Demo.GenderCode; Demo.Division; Demo.Address] /\
  (process_index JsonRef.loads hash_order Demo.es "employee_data" Demo.llm 20 []).1
    = take 9 (process_index JsonRef.loads hash_order Demo.es "employee_data" Demo.llm 20 []).1
        ++ Pool.Yielded Demo.GenderCode
        :: drop 10 (process_index JsonRef.loads hash_order Demo.es "employee_data" Demo.llm 20 []).1 /\
  submitted (take 9 (process_index JsonRef.loads hash_order Demo.es "employee_data" Demo.llm 20 []).1)
    = [Demo.GenderCode; Demo.Division; Demo.Address].
Proof.
  split_and!; [vm_compute; reflexivity..|].
  apply (results_read_after_all_submitted JsonRef.loads hash_order Demo.es "employee_data"
           Demo.llm 20 [] [Demo.GenderCode; Demo.Division; Demo.Address]
           (take 9 (process_index JsonRef.loads hash_order Demo.es "employee_data" Demo.llm 20 []).1)
           (drop 10 (process_index JsonRef.loads hash_order Demo.es "employee_data" Demo.llm 20 []).1)
           Demo.GenderCode);
    vm_compute; reflexivity.
Defined.

Lemma result_follows_hand_over_order_witness :
  get_fields Demo.es "employee_data" = Ok [Demo.GenderCode; Demo.Division; Demo.Address] /\
  let work fi := process_field JsonRef.loads hash_order Demo.es "employee_data" fi Demo.llm_flaky 20 in
  let run := process_index JsonRef.loads hash_order Demo.es "employee_data" Demo.llm_flaky 20 [] in
  run.2 = for_each work (handed_over run.1) /\
  match run.2 with
  | Ok _ => handed_over run.1 ≡ₚ [Demo.GenderCode; Demo.Division; Demo.Address]
  | Raise e =>
      exists taken failed,
        handed_over run.1 = taken ++ [failed] /\
        Forall (fun fi => exists record, work fi = Ok record) taken /\
        work failed = Raise e
  end.
Proof.
  split; [vm_compute; reflexivity|].
  apply (result_follows_hand_over_order JsonRef.loads hash_order Demo.es "employee_data"
           Demo.llm_flaky 20 [] [Demo.GenderCode; Demo.Division; Demo.Address]).
  vm_compute; reflexivity.
Defined.

Lemma dictionary_one_record_per_index_field_witness :
  get_indices Demo.es = Ok ["employee_data"; "offices"] /\
  Forall2 (fun index records =>
             exists fields,
               get_fields Demo.es index = Ok fields /\
               for_each (fun fi => process_field JsonRef.loads hash_order Demo.es index fi Demo.llm 20)
                 fields = Ok records)
    ["employee_data"; "offices"] [Demo.employee_records; DemoEdge.offices_records] /\
  exists parts,
    (generate_metadata_dictionary JsonRef.loads hash_order Demo.es Demo.llm 20 Demo.scheds).2
      = Ok (concat parts) /\
    Forall2 (≡ₚ) parts [Demo.employee_records; DemoEdge.offices_records] /\
    length (concat parts)
      = length (concat [Demo.employee_records; DemoEdge.offices_records]).
Proof.
  assert (Forall2 (fun index records =>
             exists fields,
               get_fields Demo.es index = Ok fields /\
               for_each (fun fi => process_field JsonRef.loads hash_order Demo.es index fi Demo.llm 20)
                 fields = Ok records)
    ["employee_data"; "offices"] [Demo.employee_records; DemoEdge.offices_records])
    as Hall.
  { constructor; [|constructor; [|constructor]];
      eexists; (split; [vm_compute; reflexivity|vm_compute; reflexivity]). }
  split_and!; [vm_compute; reflexivity|exact Hall|].
  apply (dictionary_one_record_per_index_field JsonRef.loads hash_order Demo.es Demo.llm 20
           Demo.scheds ["employee_data"; "offices"]
           [Demo.employee_records; DemoEdge.offices_records]);
    [vm_compute; reflexivity|exact Hall].
Defined.

Lemma failing_unit_aborts_full_run_witness :
  get_indices Demo.es = Ok ["employee_data"; "offices"] /\
  "employee_data" ∈ ["employee_data"; "offices"] /\
  get_fields Demo.es "employee_data" = Ok [Demo.GenderCode; Demo.Division; Demo.Address] /\
  Demo.Division ∈ [Demo.GenderCode; Demo.Division; Demo.Address] /\
  process_field JsonRef.loads hash_order Demo.es "employee_data" Demo.Division Demo.llm_flaky 20
    = Raise (TransportError "Read timed out.") /\
  exists e',
    (generate_metadata_dictionary JsonRef.loads hash_order Demo.es Demo.llm_flaky 20 Demo.scheds).2
      = Raise e'.
Proof.
  assert ("employee_data" ∈ ["employee_data"; "offices"]) as Hindex
    by apply list_elem_of_here.
  assert (Demo.Division ∈ [Demo.GenderCode; Demo.Division; Demo.Address]) as Hfd
    by (apply list_elem_of_further, list_elem_of_here).
  split_and!; [vm_compute; reflexivity|exact Hindex|vm_compute; reflexivity
              |exact Hfd|vm_compute; reflexivity|].
  apply (failing_unit_aborts_full_run JsonRef.loads hash_order Demo.es Demo.llm_flaky 20
           Demo.scheds ["employee_data"; "offices"] "employee_data"
           [Demo.GenderCode; Demo.Division; Demo.Address] Demo.Division
           (TransportError "Read timed out."));
    first [exact Hindex|exact Hfd|vm_compute; reflexivity].
Defined.

Lemma index_without_fields_is_skipped_witness :
  indices_get_mapping DemoEdge.es_bare "archive"
    = Ok {["archive" := DemoEdge.bare_mapping]} /\
  ({["archive" := DemoEdge.bare_mapping]} : gmap string index_mapping) !! "archive"
    = Some DemoEdge.bare_mapping /\
  default [] (properties (mappings DemoEdge.bare_mapping)) = [] /\
  process_index JsonRef.loads hash_order DemoEdge.es_bare "archive" Demo.llm 20 [3; 1]
    = ([], Ok []).
Proof.
  split_and!; [vm_compute; reflexivity..|].
  apply (index_without_fields_is_skipped JsonRef.loads hash_order DemoEdge.es_bare "archive"
           {["archive" := DemoEdge.bare_mapping]} DemoEdge.bare_mapping Demo.llm 20 [3; 1]);
    vm_compute; reflexivity.
Defined.

Lemma index_missing_from_mapping_raises_witness :
  indices_get_mapping DemoEdge.es_alias "staff"
    = Ok {["employee_data" := Demo.employee_mapping]} /\
  ({["employee_data" := Demo.employee_mapping]} : gmap string index_mapping) !! "staff"
    = None /\
  get_indices DemoEdge.es_alias = Ok ["staff"] /\
  process_index JsonRef.loads hash_order DemoEdge.es_alias "staff" Demo.llm 20 []
    = ([], Raise (KeyError "staff")) /\
  generate_metadata_dictionary JsonRef.loads hash_order DemoEdge.es_alias Demo.llm 20 []
    = ([], Raise (KeyError "staff")).
Proof.
  split_and!; [vm_compute; reflexivity..| |];
    apply (index_missing_from_mapping_raises JsonRef.loads hash_order DemoEdge.es_alias "staff"
             {["employee_data" := Demo.employee_mapping]} Demo.llm 20 [] [] []);
    vm_compute; reflexivity.
Defined.
